(** * The chaos/formed morph of the particle tree, over the real numbers

    A shallow embedding of the numeric core of the scene component
    (point samplers, morph controller, foliage vertex shader, ornament
    renderer, mode driver).  JavaScript and GLSL numbers are read as
    ideal real numbers: rounding is not modelled, and a computation
    whose floating point result would be NaN or an infinity (division
    by zero, normalising the zero vector) returns [None].  Each call of
    [Math.random()] becomes an explicit argument, in the order in which
    the source draws. *)

From Stdlib Require Import Reals Lra Psatz List Bool NArith Lia Sorted.
From Stdlib Require String.
Import ListNotations.
Open Scope R_scope.

(** ** Scalar functions *)

(** JavaScript's [x ** y] where the result is a real number.  A positive
    base gives [exp (y * ln x)]; base zero gives 0 for a positive
    exponent and 1 for exponent zero.  [None] stands for the results
    that are not real numbers ([0 ** y] for negative [y] is Infinity)
    and for a negative base, which the renderer never produces: its base
    is a [smoothstep] value. *)
Definition js_pow (b e : R) : option R :=
  if Rlt_dec 0 b then Some (Rpower b e)
  else if Rlt_dec b 0 then None
  else if Rlt_dec 0 e then Some 0
  else if Rlt_dec e 0 then None
  else Some 1.

(** [Math.cbrt]: the real cube root, odd and defined everywhere. *)
Definition cbrt (a : R) : R :=
  if Rlt_dec 0 a then Rpower a (/ 3)
  else if Rlt_dec a 0 then - Rpower (- a) (/ 3)
  else 0.

Module MathUtils.

(** Modelled from the spec: [THREE.MathUtils.lerp] belongs to the
    three.js library, which the source imports but the repository does
    not contain.  The spec's linear interpolation between two values at
    a fraction is, as in three.js, [(1 - t) * x + t * y]. *)
Definition lerp (a b t : R) : R := (1 - t) * a + t * b.

(** Modelled from the spec: [THREE.MathUtils.damp] belongs to the
    three.js library, which the source imports but the repository does
    not contain.  The spec's exponential (time-constant) damping, where
    progress moves a fraction of the remaining distance to the target
    each unit of time, is, as in three.js,
    [lerp (x, y, 1 - Math.exp (- lambda * dt))]. *)
Definition damp (a b lambda dt : R) : R :=
  lerp a b (1 - exp (- lambda * dt)).

(** Modelled from the spec: [THREE.MathUtils.smoothstep] belongs to the
    three.js library, which the source imports but the repository does
    not contain.  The spec's ease (0 at the lower edge, 1 at the upper
    edge, zero derivative at both ends) is, as in three.js, 0 at or
    below [lo], 1 at or above [hi], and the cubic
    [u * u * (3 - 2 * u)] of the rescaled argument in between. *)
Definition smoothstep (a lo hi : R) : R :=
  if Rle_dec a lo then 0
  else if Rle_dec hi a then 1
  else let u := (a - lo) / (hi - lo) in u * u * (3 - 2 * u).

End MathUtils.

(** ** Vectors *)

Module Vector3.

Record t : Type := new { x : R; y : R; z : R }.

(** [Vector3.length]. *)
Definition length (v : t) : R :=
  sqrt (x v * x v + y v * y v + z v * z v).

(** Modelled from the spec: [Vector3.lerp] belongs to the three.js
    library, which the source imports but the repository does not
    contain.  The spec's lerp(chaos, target, t) is, as in three.js, the
    component-wise update [this.x += (v.x - this.x) * alpha]. *)
Definition lerp (a b : t) (alpha : R) : t :=
  new (x a + (x b - x a) * alpha)
      (y a + (y b - y a) * alpha)
      (z a + (z b - z a) * alpha).

Definition add (a b : t) : t := new (x a + x b) (y a + y b) (z a + z b).
Definition sub (a b : t) : t := new (x a - x b) (y a - y b) (z a - z b).
Definition scale (a : t) (k : R) : t := new (x a * k) (y a * k) (z a * k).

(** The convex combination [(1 - s) * a + s * b]. *)
Definition combine (a b : t) (s : R) : t :=
  new ((1 - s) * x a + s * x b)
      ((1 - s) * y a + s * y b)
      ((1 - s) * z a + s * z b).

(** [p] lies on the closed segment from [a] to [b]. *)
Definition on_segment (a b p : t) : Prop :=
  exists s : R, 0 <= s <= 1 /\ p = combine a b s.

End Vector3.

(** ** GLSL built-ins used by the foliage vertex shader *)

Module GLSL.

(** [mix(x, y, a) = x * (1 - a) + y * a], component-wise. *)
Definition mix (a b : Vector3.t) (s : R) : Vector3.t :=
  Vector3.new (Vector3.x a * (1 - s) + Vector3.x b * s)
              (Vector3.y a * (1 - s) + Vector3.y b * s)
              (Vector3.z a * (1 - s) + Vector3.z b * s).

(** [normalize(v) = v / length(v)]; undefined for the zero vector. *)
Definition normalize (v : Vector3.t) : option Vector3.t :=
  if Req_dec_T (Vector3.length v) 0 then None
  else Some (Vector3.scale v (/ Vector3.length v)).

End GLSL.

(** ** Point samplers *)

(** [randomPointInSphere(radius)], with its three draws [u], [v], [w].
    [Math.acos] is a real number for an argument in [-1,1], where
    [2 * v - 1] lies for a draw [v] in [0,1). *)
Definition randomPointInSphere (radius u v w : R) : Vector3.t :=
  let theta := u * 2 * PI in
  let phi := acos (2 * v - 1) in
  let r := cbrt w * radius in
  Vector3.new (r * sin phi * cos theta)
              (r * sin phi * sin theta)
              (r * cos phi).

(** [randomPointOnCone(height, baseRadius)], with its three draws: [d1]
    for the height, [d2] for the angle, [d3] for the jitter.  A zero
    [height] makes [y / height] a division by zero. *)
Definition randomPointOnCone (height baseRadius d1 d2 d3 : R)
    : option Vector3.t :=
  if Req_dec_T height 0 then None
  else
    let y := d1 * height in
    let radius := (1 - y / height) * baseRadius in
    let angle := d2 * PI * 2 in
    let jitter := (d3 - 0.5) * 0.15 in
    Some (Vector3.new ((radius + jitter) * cos angle)
                      (y - height * 0.45)
                      ((radius + jitter) * sin angle)).

(** ** Foliage vertex shader *)

(** The shimmer amplitude [sin(uTime * 1.5 + sparkle * 12.0) * 0.05]. *)
Definition wave (uTime sparkle : R) : R :=
  sin (uTime * 1.5 + sparkle * 12) * 0.05.

(** [mixedPosition] at the end of the vertex shader's [main], before the
    model-view and projection matrices: attribute [position] holds the
    chaos point, attribute [target] the target point. *)
Definition foliage_vertex (uProgress uTime : R)
    (position target : Vector3.t) (sparkle : R) : option Vector3.t :=
  let mixedPosition := GLSL.mix position target uProgress in
  match GLSL.normalize mixedPosition with
  | Some n =>
      Some (Vector3.add mixedPosition (Vector3.scale n (wave uTime sparkle)))
  | None => None
  end.

(** ** Ornament renderer *)

Record OrnamentDefinition : Type := {
  chaos : list Vector3.t;
  target : list Vector3.t;
  weight : R
}.

(** What the frame callback writes for one instance. *)
Record Instance : Type := {
  position : Vector3.t;
  rotation : R * R * R;
  scale : R
}.

(** [easedProgress ** (1 / weight)].  For weight zero [1 / weight] is
    Infinity, and [x ** Infinity] is 0 for a base below 1 and NaN for
    base 1. *)
Definition ornament_t (progress weight : R) : option R :=
  if Req_dec_T weight 0
  then (if Rlt_dec (MathUtils.smoothstep progress 0 1) 1 then Some 0
        else None)
  else js_pow (MathUtils.smoothstep progress 0 1) (1 / weight).

Definition place (c g : Vector3.t) (t : R) : Instance :=
  {| position := Vector3.lerp c g t;
     rotation := (t * PI * 1.4, t * PI * 2.2, 0);
     scale := 0.12 + (1 - t) * 0.04 |}.

(** The body of the loop for one index. *)
Definition ornament_instance (progress weight : R) (c g : Vector3.t)
    : option Instance :=
  match ornament_t progress weight with
  | Some t => Some (place c g t)
  | None => None
  end.

(** The loop of [OrnamentInstances]'s frame callback, for a mounted
    mesh: index [i] runs over [definition.chaos] and reads
    [definition.target[i]]; a missing target makes [lerp] fail.  The
    colours, copied unchanged from the definition, are left out. *)
Fixpoint ornament_loop (progress weight : R) (cs gs : list Vector3.t)
    : option (list Instance) :=
  match cs with
  | [] => Some []
  | c :: cs' =>
      match gs with
      | [] => None
      | g :: gs' =>
          match ornament_instance progress weight c g,
                ornament_loop progress weight cs' gs' with
          | Some i, Some rest => Some (i :: rest)
          | _, _ => None
          end
      end
  end.

Definition OrnamentInstances (definition : OrnamentDefinition)
    (progress : R) : option (list Instance) :=
  ornament_loop progress (weight definition)
                (chaos definition) (target definition).

(** The weights [GrandTree] gives its three groups. *)
Definition gift_weight : R := 1.35.
Definition globe_weight : R := 0.9.
Definition light_weight : R := 0.6.

(** ** Morph controller *)

Inductive TreeMode : Type := CHAOS | FORMED.

Definition target_of (mode : TreeMode) : R :=
  match mode with FORMED => 1 | CHAOS => 0 end.

(** [useRef(mode === "FORMED" ? 1 : 0)]. *)
Definition initial_progress (mode : TreeMode) : R := target_of mode.

Definition speed : R := 0.65.

(** One call of [LuxuryScene]'s frame callback. *)
Definition LuxuryScene_frame (mode : TreeMode) (progress delta : R) : R :=
  MathUtils.damp progress (target_of mode) speed delta.

(** The values of [progressRef.current] after each of a sequence of
    frames, each with the mode current at that frame and its delta. *)
Fixpoint progress_trace (progress : R) (frames : list (TreeMode * R))
    : list R :=
  match frames with
  | [] => []
  | (mode, delta) :: rest =>
      let p' := LuxuryScene_frame mode progress delta in
      p' :: progress_trace p' rest
  end.

(** ** Mode driver *)

Definition flip (mode : TreeMode) : TreeMode :=
  match mode with FORMED => CHAOS | CHAOS => FORMED end.

(** The delay passed to [window.setInterval], in milliseconds. *)
Definition period : N := 6500%N.

(** The state of [App]: its two [useState] cells and the interval the
    effect holds, as the milliseconds elapsed since the interval was set
    or last fired ([None]: no interval is set). *)
Record AppState : Type := {
  mode : TreeMode;
  autoShift : bool;
  interval : option N
}.

(** The effect with dependency [autoShift]: nothing when auto-shift is
    off, a fresh interval otherwise.  Its cleanup clears the interval it
    set, so after the effect has run the old interval is gone. *)
Definition effect (auto : bool) : option N :=
  if auto then Some 0%N else None.

(** First render: [useState("FORMED")], [useState(true)], then the
    effect. *)
Definition mount : AppState :=
  {| mode := FORMED; autoShift := true; interval := effect true |}.

Inductive Event : Type :=
  | ClickToggle       (* the Toggle button: setMode(flip) *)
  | ClickAutoShift    (* the Auto Shift button: setAutoShift(not) *)
  | Millisecond.      (* one millisecond of wall-clock time passes *)

(** The interval's callback: [setMode(prev => flip prev)]. *)
Definition interval_callback (st : AppState) : AppState :=
  {| mode := flip (mode st); autoShift := autoShift st;
     interval := interval st |}.

(** Whether the interval fires at the end of the coming millisecond. *)
Definition due (st : AppState) : bool :=
  match interval st with
  | Some e => (N.succ e =? period)%N
  | None => false
  end.

(** The timer's own bookkeeping over one millisecond: an interval that
    fires starts its next period. *)
Definition advance (st : AppState) : AppState :=
  {| mode := mode st; autoShift := autoShift st;
     interval :=
       match interval st with
       | Some e => if (N.succ e =? period)%N then Some 0%N
                   else Some (N.succ e)
       | None => None
       end |}.

Definition step (ev : Event) (st : AppState) : AppState :=
  match ev with
  | ClickToggle =>
      {| mode := flip (mode st); autoShift := autoShift st;
         interval := interval st |}
  | ClickAutoShift =>
      {| mode := mode st; autoShift := negb (autoShift st);
         interval := effect (negb (autoShift st)) |}
  | Millisecond =>
      if due st then interval_callback (advance st) else advance st
  end.

Definition run (evs : list Event) (st : AppState) : AppState :=
  fold_left (fun s ev => step ev s) evs st.

(** A state the application can be in. *)
Definition reachable (st : AppState) : Prop :=
  exists evs : list Event, run evs mount = st.

(** One millisecond, counting the runs of the interval's callback. *)
Definition tick (sc : AppState * N) : AppState * N :=
  (step Millisecond (fst sc),
   if due (fst sc) then N.succ (snd sc) else snd sc).

(** [ms] milliseconds pass with no click. *)
Definition elapse (ms : N) (st : AppState) : AppState :=
  fst (N.iter ms tick (st, 0%N)).

(** How often the interval's callback runs in those [ms] milliseconds. *)
Definition callbacks (ms : N) (st : AppState) : N :=
  snd (N.iter ms tick (st, 0%N)).

(** [n] successive flips. *)
Definition flips (n : N) (m : TreeMode) : TreeMode := N.iter n flip m.

(** The timer state matches the auto-shift flag. *)
Definition well_formed (st : AppState) : Prop :=
  match interval st with
  | Some e => autoShift st = true /\ (e < period)%N
  | None => autoShift st = false
  end.

(** ** The unit interval *)

Definition in_unit (q : R) : Prop := 0 <= q <= 1.

(** ** Scene constants *)

Definition CHAOS_RADIUS : R := 4.5.
Definition TREE_HEIGHT : R := 5.2.
Definition TREE_RADIUS : R := 2.2.
Definition FOLIAGE_COUNT : nat := N.to_nat 12000.

(** ** The random source *)

(** [rand k] is what the [k]-th call of [Math.random()] returns; the
    builders below thread the number [k] of calls made so far. *)
Definition Random : Type := nat -> R.

(** Every draw is in [0,1), as [Math.random()] promises. *)
Definition uniform_draws (rand : Random) : Prop :=
  forall k : nat, 0 <= rand k < 1.

(** ** Foliage geometry *)

(** The three attributes of the foliage geometry, one entry per vertex
    (the source keeps them flattened in typed arrays of item size 3, 3
    and 1): [position] holds the chaos points.  The entries are the
    exact values; the rounding of the typed arrays on storing is not
    part of this record. *)
Record FoliageGeometry : Type := {
  position_attribute : list Vector3.t;
  target_attribute : list Vector3.t;
  sparkle_attribute : list R
}.

(** The loop of [FoliagePoints]'s geometry: per vertex a chaos point
    (three draws), a target point (three draws) and a phase (one draw);
    [n] vertices remain to be made, [k] draws have been made. *)
Fixpoint foliage_loop (rand : Random) (n k : nat) : option FoliageGeometry :=
  match n with
  | O => Some {| position_attribute := []; target_attribute := [];
                 sparkle_attribute := [] |}
  | S n' =>
      let chaosPoint :=
        randomPointInSphere CHAOS_RADIUS (rand k) (rand (1 + k)%nat)
                            (rand (2 + k)%nat) in
      match randomPointOnCone TREE_HEIGHT TREE_RADIUS (rand (3 + k)%nat)
                              (rand (4 + k)%nat) (rand (5 + k)%nat),
            foliage_loop rand n' (7 + k)%nat with
      | Some targetPoint, Some geo =>
          Some {| position_attribute := chaosPoint :: position_attribute geo;
                  target_attribute := targetPoint :: target_attribute geo;
                  sparkle_attribute :=
                    rand (6 + k)%nat :: sparkle_attribute geo |}
      | _, _ => None
      end
  end.

Definition FoliagePoints_geometry (rand : Random) (k : nat)
    : option FoliageGeometry :=
  foliage_loop rand FOLIAGE_COUNT k.

(** [gl_PointSize = 6.5 + sparkle * 6.0]. *)
Definition gl_PointSize (sparkle : R) : R := 6.5 + sparkle * 6.

(** The vertex shader run once per vertex of the geometry. *)
Definition foliage_frame (geo : FoliageGeometry) (uProgress uTime : R)
    : list (option Vector3.t) :=
  map (fun v => foliage_vertex uProgress uTime (fst (fst v)) (snd (fst v))
                               (snd v))
      (combine (combine (position_attribute geo) (target_attribute geo))
               (sparkle_attribute geo)).

(** ** Ornament sets *)

(** What [useOrnamentSet] returns: the definition the renderer reads,
    and its colours, each the palette entry the colour is made from
    ([None]: the entry is [undefined]). *)
Record OrnamentSet : Type := {
  set_definition : OrnamentDefinition;
  colors : list (option String.string)
}.

(** The loop of [useOrnamentSet]: index [i], with [n] instances
    remaining and [k] draws made.  For an empty palette
    [palette[i % palette.length]] is [undefined]. *)
Fixpoint ornament_set_loop (rand : Random) (palette : list String.string)
    (spread : R) (n i k : nat)
    : option (list Vector3.t * list Vector3.t * list (option String.string)) :=
  match n with
  | O => Some ([], [], [])
  | S n' =>
      let c :=
        randomPointInSphere (CHAOS_RADIUS + spread) (rand k)
                            (rand (1 + k)%nat) (rand (2 + k)%nat) in
      match randomPointOnCone TREE_HEIGHT (TREE_RADIUS * 0.85)
                              (rand (3 + k)%nat) (rand (4 + k)%nat)
                              (rand (5 + k)%nat),
            ornament_set_loop rand palette spread n' (S i) (6 + k)%nat with
      | Some g, Some (cs, gs, cols) =>
          Some (c :: cs, g :: gs,
                nth_error palette (i mod List.length palette)%nat :: cols)
      | _, _ => None
      end
  end.

Definition useOrnamentSet (count : nat) (palette : list String.string)
    (weight spread : R) (rand : Random) (k : nat) : option OrnamentSet :=
  match ornament_set_loop rand palette spread count 0 k with
  | Some (cs, gs, cols) =>
      Some {| set_definition :=
                {| chaos := cs; target := gs; weight := weight |};
              colors := cols |}
  | None => None
  end.

(** The squared Euclidean norm. *)
Definition norm_sq (v : Vector3.t) : R :=
  Vector3.x v * Vector3.x v + Vector3.y v * Vector3.y v
  + Vector3.z v * Vector3.z v.

(** The sum of a list of frame deltas. *)
Definition total_time (deltas : list R) : R := fold_right Rplus 0 deltas.

(** A run of frames during which the mode stays [m]. *)
Definition steady (m : TreeMode) (deltas : list R) : list (TreeMode * R) :=
  map (fun d => (m, d)) deltas.

(** * Properties *)

(** ** The ease and the power curve *)

Section PowerCurve.

Import MathUtils.

Lemma smoothstep_unit (p : R) : 0 <= smoothstep p 0 1 <= 1.
Proof.
  unfold smoothstep.
  destruct (Rle_dec p 0) as [Hlo | Hlo]; [lra |].
  destruct (Rle_dec 1 p) as [Hhi | Hhi]; [lra |].
  cbv zeta. replace ((p - 0) / (1 - 0)) with p by field.
  assert (0 < p < 1) as Hp by lra. split.
  - apply Rmult_le_pos; [nra | lra].
  - replace (p * p * (3 - 2 * p)) with (1 - (1 - p) * (1 - p) * (1 + 2 * p))
      by ring.
    assert (0 <= (1 - p) * (1 - p) * (1 + 2 * p))
      by (apply Rmult_le_pos; [nra | lra]).
    lra.
Qed.

Lemma smoothstep_inside (p : R) :
  0 < p < 1 -> smoothstep p 0 1 = p * p * (3 - 2 * p).
Proof.
  intros Hp. unfold smoothstep.
  destruct (Rle_dec p 0) as [Hlo | Hlo]; [lra |].
  destruct (Rle_dec 1 p) as [Hhi | Hhi]; [lra |].
  cbv zeta. field.
Qed.

Lemma smoothstep_half : smoothstep (1 / 2) 0 1 = 1 / 2.
Proof. rewrite smoothstep_inside by lra. lra. Qed.

Lemma js_pow_pos (b e : R) : 0 < b -> js_pow b e = Some (Rpower b e).
Proof.
  intros Hb. unfold js_pow. destruct (Rlt_dec 0 b); [reflexivity | lra].
Qed.

Lemma js_pow_zero (e : R) : 0 < e -> js_pow 0 e = Some 0.
Proof.
  intros He. unfold js_pow.
  destruct (Rlt_dec 0 0); [lra |].
  destruct (Rlt_dec 0 e); [reflexivity | lra].
Qed.

(** [exp] is monotone (the library states the strict form). *)
Lemma exp_monotone (a b : R) : a <= b -> exp a <= exp b.
Proof.
  intros [Hlt | ->]; [left; now apply exp_increasing | right; reflexivity].
Qed.

Lemma ln_nonpos (s : R) : 0 < s <= 1 -> ln s <= 0.
Proof.
  intros [Hs [Hlt | ->]].
  - rewrite <- ln_1. left. now apply ln_increasing.
  - rewrite ln_1. lra.
Qed.

Lemma ln_neg (s : R) : 0 < s < 1 -> ln s < 0.
Proof. intros [Hs Hlt]. rewrite <- ln_1. now apply ln_increasing. Qed.

(** On a base in (0,1] the power decreases as the exponent grows. *)
Lemma Rpower_antitone (s e1 e2 : R) :
  0 < s <= 1 -> e1 <= e2 -> Rpower s e2 <= Rpower s e1.
Proof.
  intros Hs He. unfold Rpower. apply exp_monotone.
  pose proof (ln_nonpos s Hs). nra.
Qed.

Lemma Rpower_strict_antitone (s e1 e2 : R) :
  0 < s < 1 -> e1 < e2 -> Rpower s e2 < Rpower s e1.
Proof.
  intros Hs He. unfold Rpower. apply exp_increasing.
  pose proof (ln_neg s Hs). nra.
Qed.

Lemma Rpower_unit (s e : R) : 0 < s <= 1 -> 0 <= e -> 0 < Rpower s e <= 1.
Proof.
  intros Hs He. split; [apply exp_pos |].
  rewrite <- (Rpower_O s) by lra. now apply Rpower_antitone.
Qed.

(** The power of a base in [0,1] to a positive exponent is a real in
    [0,1]. *)
Lemma js_pow_unit (s e : R) :
  0 <= s <= 1 -> 0 < e -> exists t, js_pow s e = Some t /\ 0 <= t <= 1.
Proof.
  intros [[Hs | <-] Hs1] He.
  - exists (Rpower s e). split; [now apply js_pow_pos |].
    pose proof (Rpower_unit s e). lra.
  - exists 0. split; [now apply js_pow_zero | lra].
Qed.

(** Exponent at least one: the power is at most the base; exponent at
    most one: at least the base. *)
Lemma js_pow_below (s e t : R) :
  0 <= s <= 1 -> 1 <= e -> js_pow s e = Some t -> t <= s.
Proof.
  intros [[Hs | <-] Hs1] He.
  - rewrite js_pow_pos by assumption. intros [= <-].
    rewrite <- (Rpower_1 s) at 2 by assumption.
    apply Rpower_antitone; lra.
  - rewrite js_pow_zero by lra. intros [= <-]. lra.
Qed.

Lemma js_pow_above (s e t : R) :
  0 <= s <= 1 -> 0 < e <= 1 -> js_pow s e = Some t -> s <= t.
Proof.
  intros [[Hs | <-] Hs1] He.
  - rewrite js_pow_pos by assumption. intros [= <-].
    rewrite <- (Rpower_1 s) at 1 by assumption.
    apply Rpower_antitone; lra.
  - rewrite js_pow_zero by lra. intros [= <-]. lra.
Qed.

Lemma js_pow_antitone (s e1 e2 t1 t2 : R) :
  0 <= s <= 1 -> 0 < e1 <= e2 ->
  js_pow s e1 = Some t1 -> js_pow s e2 = Some t2 -> t2 <= t1.
Proof.
  intros [[Hs | <-] Hs1] He.
  - rewrite !js_pow_pos by assumption. intros [= <-] [= <-].
    apply Rpower_antitone; lra.
  - rewrite !js_pow_zero by lra. intros [= <-] [= <-]. lra.
Qed.

Lemma inv_weight_gt (w : R) : 0 < w < 1 -> 1 < 1 / w.
Proof.
  intros Hw. apply Rmult_lt_reg_r with w; [lra |].
  replace (1 / w * w) with 1 by (field; lra). lra.
Qed.

Lemma inv_weight_lt (w : R) : 1 < w -> 0 < 1 / w < 1.
Proof.
  intros Hw. split.
  - apply Rdiv_lt_0_compat; lra.
  - apply Rmult_lt_reg_r with w; [lra |].
    replace (1 / w * w) with 1 by (field; lra). lra.
Qed.

Lemma inv_weight_antitone (w1 w2 : R) :
  0 < w1 <= w2 -> 0 < 1 / w2 <= 1 / w1.
Proof.
  intros Hw. split.
  - apply Rdiv_lt_0_compat; lra.
  - unfold Rdiv. rewrite !Rmult_1_l. apply Rinv_le_contravar; lra.
Qed.

Lemma ornament_t_eq (p w : R) :
  w <> 0 -> ornament_t p w = js_pow (smoothstep p 0 1) (1 / w).
Proof.
  intros Hw. unfold ornament_t.
  destruct (Req_dec_T w 0); [contradiction | reflexivity].
Qed.

(** For a positive weight the fraction is a real number in [0,1]. *)
Lemma ornament_t_unit (p w : R) :
  0 < w -> exists t, ornament_t p w = Some t /\ 0 <= t <= 1.
Proof.
  intros Hw. rewrite ornament_t_eq by lra.
  apply js_pow_unit; [apply smoothstep_unit |].
  apply Rdiv_lt_0_compat; lra.
Qed.

End PowerCurve.

(** ** Convergence weights *)

Section ConvergenceWeight.

Import MathUtils.

Lemma ornament_t_pos (p w : R) :
  w <> 0 -> 0 < smoothstep p 0 1 ->
  ornament_t p w = Some (Rpower (smoothstep p 0 1) (1 / w)).
Proof.
  intros Hw Hs. rewrite ornament_t_eq by assumption. now apply js_pow_pos.
Qed.

(** C1, as the spec words it, fails on the source's own groups at
    progress 1/2, where the eased progress is 1/2: the lights
    (weight 0.6, below 1) have a fraction strictly below the eased
    progress, and the gifts (weight 1.35, above 1) a fraction strictly
    above it. *)
Lemma weight_below_one_lags_at_half :
  (exists t, ornament_t (1 / 2) light_weight = Some t /\
             t < smoothstep (1 / 2) 0 1) /\
  (exists t, ornament_t (1 / 2) gift_weight = Some t /\
             smoothstep (1 / 2) 0 1 < t).
Proof.
  rewrite smoothstep_half. unfold light_weight, gift_weight. split.
  - exists (Rpower (1 / 2) (1 / 0.6)). split.
    + rewrite ornament_t_pos; rewrite ?smoothstep_half; try lra; reflexivity.
    + rewrite <- (Rpower_1 (1 / 2)) at 2 by lra.
      apply Rpower_strict_antitone; lra.
  - exists (Rpower (1 / 2) (1 / 1.35)). split.
    + rewrite ornament_t_pos; rewrite ?smoothstep_half; try lra; reflexivity.
    + rewrite <- (Rpower_1 (1 / 2)) at 1 by lra.
      apply Rpower_strict_antitone; lra.
Qed.

(** C1, amended: for every progress value and every positive weight
    [w] the fraction [t(w) = smoothstep(p,0,1) ** (1/w)] is a real
    number; a weight below 1 gives [t(w) <= smoothstep(p,0,1)]
    (slower than the eased progress), a weight above 1 gives
    [t(w) >= smoothstep(p,0,1)] (faster), and the fraction grows with
    the weight, so larger-weight groups arrive earlier. *)
Theorem weight_orders_convergence (p w : R) :
  0 < w ->
  exists t, ornament_t p w = Some t /\
    (w < 1 -> t <= smoothstep p 0 1) /\
    (1 < w -> smoothstep p 0 1 <= t) /\
    (forall w' t', w <= w' -> ornament_t p w' = Some t' -> t <= t').
Proof.
  intros Hw. destruct (ornament_t_unit p w Hw) as (t & Ht & _).
  exists t. split; [assumption |].
  pose proof (smoothstep_unit p) as Hs.
  rewrite ornament_t_eq in Ht by lra. repeat split.
  - intros Hlt. apply (js_pow_below _ (1 / w)); try assumption.
    left. apply inv_weight_gt. lra.
  - intros Hgt. apply (js_pow_above _ (1 / w)); try assumption.
    destruct (inv_weight_lt w Hgt). lra.
  - intros w' t' Hle Ht'. rewrite ornament_t_eq in Ht' by lra.
    apply (js_pow_antitone (smoothstep p 0 1) (1 / w') (1 / w));
      try assumption.
    apply inv_weight_antitone. lra.
Qed.

Lemma weight_orders_convergence_witness :
  exists t, ornament_t (1 / 2) light_weight = Some t /\
    (light_weight < 1 -> t <= smoothstep (1 / 2) 0 1) /\
    (1 < light_weight -> smoothstep (1 / 2) 0 1 <= t) /\
    (forall w' t', light_weight <= w' ->
       ornament_t (1 / 2) w' = Some t' -> t <= t').
Proof.
  apply (weight_orders_convergence (1 / 2) light_weight).
  unfold light_weight. lra.
Defined.

Lemma inv_one : 1 / 1 = 1.
Proof. field. Qed.

Lemma inv_two : 1 / 2 = / 2.
Proof. field. Qed.

(** C3, as the spec words it, fails at progress 1/2: the weight-1
    fraction is 1/2 and the weight-2 fraction is its square root, not
    its square. *)
Lemma weight_two_is_not_the_square :
  exists t1 t2,
    ornament_t (1 / 2) 1 = Some t1 /\ ornament_t (1 / 2) 2 = Some t2 /\
    t2 <> t1 * t1.
Proof.
  exists (1 / 2), (sqrt (1 / 2)). repeat split.
  - rewrite ornament_t_pos by (rewrite ?smoothstep_half; lra).
    rewrite smoothstep_half, inv_one, Rpower_1 by lra. reflexivity.
  - rewrite ornament_t_pos by (rewrite ?smoothstep_half; lra).
    rewrite smoothstep_half, inv_two, Rpower_sqrt by lra.
    rewrite <- inv_two. reflexivity.
  - intros Heq.
    pose proof (sqrt_sqrt (1 / 2) ltac:(lra)) as Hsq.
    rewrite Heq in Hsq. lra.
Qed.

(** C3, amended: for every progress value the fractions of a weight-1
    and a weight-2 group are real numbers with [t1 = t2 * t2]: the
    weight-1 fraction is the eased progress itself and the weight-2
    fraction is its square root. *)
Theorem weight_two_is_the_square_root (p : R) :
  exists t1 t2,
    ornament_t p 1 = Some t1 /\ ornament_t p 2 = Some t2 /\
    t1 = t2 * t2 /\ t1 = smoothstep p 0 1 /\ t2 = sqrt t1.
Proof.
  pose proof (smoothstep_unit p) as [[Hs | Hs] Hs1].
  - exists (smoothstep p 0 1), (sqrt (smoothstep p 0 1)). repeat split.
    + rewrite ornament_t_pos by lra.
      rewrite inv_one, Rpower_1 by assumption. reflexivity.
    + rewrite ornament_t_pos by lra.
      rewrite inv_two, Rpower_sqrt by assumption. reflexivity.
    + symmetry. apply sqrt_sqrt. lra.
  - exists 0, 0. rewrite !ornament_t_eq by lra. rewrite <- Hs.
    repeat split.
    + apply js_pow_zero. lra.
    + apply js_pow_zero. lra.
    + ring.
    + symmetry. apply sqrt_0.
Qed.

End ConvergenceWeight.

(** ** Interpolated positions *)

Section Segment.

Import MathUtils.

Lemma vector_eq (a b : Vector3.t) :
  Vector3.x a = Vector3.x b -> Vector3.y a = Vector3.y b ->
  Vector3.z a = Vector3.z b -> a = b.
Proof. destruct a, b; simpl; intros -> -> ->; reflexivity. Qed.

Lemma lerp_combine (a b : Vector3.t) (s : R) :
  Vector3.lerp a b s = Vector3.combine a b s.
Proof. apply vector_eq; simpl; ring. Qed.

Lemma mix_combine (a b : Vector3.t) (s : R) :
  GLSL.mix a b s = Vector3.combine a b s.
Proof. apply vector_eq; simpl; ring. Qed.

Lemma lerp_on_segment (a b : Vector3.t) (s : R) :
  0 <= s <= 1 -> Vector3.on_segment a b (Vector3.lerp a b s).
Proof. intros Hs. exists s. split; [assumption | apply lerp_combine]. Qed.

Lemma mix_on_segment (a b : Vector3.t) (s : R) :
  0 <= s <= 1 -> Vector3.on_segment a b (GLSL.mix a b s).
Proof. intros Hs. exists s. split; [assumption | apply mix_combine]. Qed.

Lemma scale_bounds (t : R) :
  0 <= t <= 1 -> 0.12 <= 0.12 + (1 - t) * 0.04 <= 0.16.
Proof. intros Ht. lra. Qed.

Lemma ornament_instance_eq (p w t : R) (c g : Vector3.t) :
  ornament_t p w = Some t -> ornament_instance p w c g = Some (place c g t).
Proof. intros Ht. unfold ornament_instance. now rewrite Ht. Qed.

(** The loop writes one instance per chaos point, all at the same
    fraction, when every index has a target. *)
Lemma ornament_loop_eq (p w t : R) (cs gs : list Vector3.t) :
  ornament_t p w = Some t -> length cs = length gs ->
  ornament_loop p w cs gs =
  Some (map (fun cg => place (fst cg) (snd cg) t) (combine cs gs)).
Proof.
  intros Ht. revert gs.
  induction cs as [| c cs IH]; intros [| g gs] Hlen;
    simpl in Hlen; try discriminate; [reflexivity |].
  simpl. rewrite (ornament_instance_eq p w t c g Ht).
  rewrite IH by (now injection Hlen). reflexivity.
Qed.

Lemma length_nonneg (v : Vector3.t) : 0 <= Vector3.length v.
Proof. apply sqrt_pos. Qed.

Lemma length_scale (v : Vector3.t) (k : R) :
  Vector3.length (Vector3.scale v k) = Rabs k * Vector3.length v.
Proof.
  unfold Vector3.length. simpl.
  replace (Vector3.x v * k * (Vector3.x v * k) +
           Vector3.y v * k * (Vector3.y v * k) +
           Vector3.z v * k * (Vector3.z v * k))
    with (Rsqr k * (Vector3.x v * Vector3.x v + Vector3.y v * Vector3.y v +
                    Vector3.z v * Vector3.z v))
    by (unfold Rsqr; ring).
  rewrite sqrt_mult_alt by apply Rle_0_sqr.
  now rewrite sqrt_Rsqr_abs.
Qed.

Lemma normalize_defined (v : Vector3.t) :
  Vector3.length v <> 0 ->
  GLSL.normalize v = Some (Vector3.scale v (/ Vector3.length v)).
Proof.
  intros Hv. unfold GLSL.normalize.
  destruct (Req_dec_T (Vector3.length v) 0); [contradiction | reflexivity].
Qed.

Lemma normalize_undefined (v : Vector3.t) :
  Vector3.length v = 0 -> GLSL.normalize v = None.
Proof.
  intros Hv. unfold GLSL.normalize.
  destruct (Req_dec_T (Vector3.length v) 0); [reflexivity | contradiction].
Qed.

(** A defined [normalize] returns a unit vector. *)
Lemma normalize_unit (v n : Vector3.t) :
  GLSL.normalize v = Some n -> Vector3.length n = 1.
Proof.
  unfold GLSL.normalize.
  destruct (Req_dec_T (Vector3.length v) 0) as [Hz | Hnz]; [discriminate |].
  intros [= <-]. rewrite length_scale.
  pose proof (length_nonneg v) as Hpos.
  rewrite Rabs_right by (left; apply Rinv_0_lt_compat; lra).
  now apply Rinv_l.
Qed.

Lemma add_sub_cancel (m o : Vector3.t) :
  Vector3.sub (Vector3.add m o) m = o.
Proof. apply vector_eq; simpl; ring. Qed.

Lemma wave_bound (uTime sparkle : R) : Rabs (wave uTime sparkle) <= 0.05.
Proof.
  unfold wave. rewrite Rabs_mult.
  pose proof (SIN_bound (uTime * 1.5 + sparkle * 12)) as Hsin.
  assert (Rabs (sin (uTime * 1.5 + sparkle * 12)) <= 1) as Habs
    by (apply Rabs_le; lra).
  rewrite (Rabs_right 0.05) by lra. lra.
Qed.

Lemma foliage_vertex_defined (p uTime sparkle : R) (c g : Vector3.t) :
  Vector3.length (GLSL.mix c g p) <> 0 ->
  foliage_vertex p uTime c g sparkle =
  Some (Vector3.add (GLSL.mix c g p)
          (Vector3.scale
             (Vector3.scale (GLSL.mix c g p)
                (/ Vector3.length (GLSL.mix c g p)))
             (wave uTime sparkle))).
Proof.
  intros Hm. unfold foliage_vertex. cbv zeta.
  now rewrite normalize_defined.
Qed.

End Segment.

Section DisplayedPositions.

Import MathUtils.

Lemma length_on_x_axis (a : R) :
  0 <= a -> Vector3.length (Vector3.new a 0 0) = a.
Proof.
  intros Ha. unfold Vector3.length. simpl.
  replace (a * a + 0 * 0 + 0 * 0) with (a * a) by ring.
  now apply sqrt_square.
Qed.

Lemma wave_peak : wave (PI / 3) 0 = 0.05.
Proof.
  unfold wave.
  replace (PI / 3 * 1.5 + 0 * 12) with (PI / 2) by lra.
  rewrite sin_PI2. lra.
Qed.

(** C2, as the spec words it, fails for foliage: with chaos point
    (1,0,0), target point (1.2,0,0), progress 1, time pi/3 and phase 0
    the shader displays (1.25,0,0), beyond the target end of the
    segment. *)
Lemma foliage_shimmer_leaves_segment :
  exists d,
    foliage_vertex 1 (PI / 3) (Vector3.new 1 0 0) (Vector3.new 1.2 0 0) 0
      = Some d /\
    d = Vector3.new 1.25 0 0 /\
    ~ Vector3.on_segment (Vector3.new 1 0 0) (Vector3.new 1.2 0 0) d.
Proof.
  assert (GLSL.mix (Vector3.new 1 0 0) (Vector3.new 1.2 0 0) 1
          = Vector3.new 1.2 0 0) as Hmix
    by (apply vector_eq; simpl; lra).
  exists (Vector3.new 1.25 0 0). repeat split.
  - rewrite foliage_vertex_defined;
      rewrite Hmix, length_on_x_axis by lra; [| lra].
    rewrite wave_peak. f_equal. apply vector_eq; simpl; lra.
  - intros (s & Hs & Heq).
    apply (f_equal Vector3.x) in Heq. simpl in Heq. lra.
Qed.

(** C2, amended: for every progress value in [0,1] and every positive
    weight, an ornament is displayed at [lerp(chaos, target, t)] with
    [t] in [0,1], on the closed segment between its chaos and target
    points; a foliage particle's interpolated point
    [mix(chaos, target, progress)] is on that segment too, and its
    displayed position is that point rescaled from the origin by
    [1 + wave / length], undefined when the interpolated point is the
    origin. *)
Theorem positions_follow_segment (p w uTime sparkle : R) (c g : Vector3.t) :
  0 <= p <= 1 -> 0 < w ->
  (exists t, 0 <= t <= 1 /\
     ornament_instance p w c g = Some (place c g t) /\
     position (place c g t) = Vector3.combine c g t /\
     Vector3.on_segment c g (position (place c g t))) /\
  (GLSL.mix c g p = Vector3.combine c g p /\
   Vector3.on_segment c g (GLSL.mix c g p) /\
   foliage_vertex p uTime c g sparkle =
     if Req_dec_T (Vector3.length (GLSL.mix c g p)) 0 then None
     else Some (Vector3.scale (GLSL.mix c g p)
                  (1 + wave uTime sparkle
                       / Vector3.length (GLSL.mix c g p)))).
Proof.
  intros Hp Hw. split.
  - destruct (ornament_t_unit p w Hw) as (t & Ht & Hunit).
    exists t. repeat split; try apply Hunit.
    + now apply ornament_instance_eq.
    + apply lerp_combine.
    + now apply lerp_on_segment.
  - repeat split.
    + apply mix_combine.
    + now apply mix_on_segment.
    + destruct (Req_dec_T (Vector3.length (GLSL.mix c g p)) 0) as [Hz | Hnz].
      * unfold foliage_vertex. cbv zeta.
        now rewrite normalize_undefined.
      * rewrite foliage_vertex_defined by assumption.
        f_equal. apply vector_eq; simpl; field; assumption.
Qed.

Lemma positions_follow_segment_witness :
  (exists t, 0 <= t <= 1 /\
     ornament_instance (1 / 2) light_weight
       (Vector3.new 1 0 0) (Vector3.new 1.2 0 0)
       = Some (place (Vector3.new 1 0 0) (Vector3.new 1.2 0 0) t) /\
     position (place (Vector3.new 1 0 0) (Vector3.new 1.2 0 0) t)
       = Vector3.combine (Vector3.new 1 0 0) (Vector3.new 1.2 0 0) t /\
     Vector3.on_segment (Vector3.new 1 0 0) (Vector3.new 1.2 0 0)
       (position (place (Vector3.new 1 0 0) (Vector3.new 1.2 0 0) t))) /\
  (GLSL.mix (Vector3.new 1 0 0) (Vector3.new 1.2 0 0) (1 / 2)
     = Vector3.combine (Vector3.new 1 0 0) (Vector3.new 1.2 0 0) (1 / 2) /\
   Vector3.on_segment (Vector3.new 1 0 0) (Vector3.new 1.2 0 0)
     (GLSL.mix (Vector3.new 1 0 0) (Vector3.new 1.2 0 0) (1 / 2)) /\
   foliage_vertex (1 / 2) 0 (Vector3.new 1 0 0) (Vector3.new 1.2 0 0) 0 =
     if Req_dec_T
          (Vector3.length
             (GLSL.mix (Vector3.new 1 0 0) (Vector3.new 1.2 0 0) (1 / 2))) 0
     then None
     else Some (Vector3.scale
                  (GLSL.mix (Vector3.new 1 0 0) (Vector3.new 1.2 0 0) (1 / 2))
                  (1 + wave 0 0
                       / Vector3.length
                           (GLSL.mix (Vector3.new 1 0 0)
                              (Vector3.new 1.2 0 0) (1 / 2))))).
Proof.
  apply (positions_follow_segment (1 / 2) light_weight 0 0
           (Vector3.new 1 0 0) (Vector3.new 1.2 0 0)).
  - lra.
  - unfold light_weight. lra.
Defined.

(** C9: for every real progress value, inside [0,1] or not, and every
    group with a positive weight whose points all have a target, the
    eased value [smoothstep(progress, 0, 1)] is in [0,1], the
    power-weighted fraction [t] is a real number in [0,1], the frame
    callback writes one instance per point at that fraction, each
    displayed position is on the closed chaos-target segment, and each
    scale [0.12 + (1 - t) * 0.04] is in [0.12, 0.16]. *)
Theorem ornament_frame_clamped (definition : OrnamentDefinition) (p : R) :
  0 < weight definition ->
  length (chaos definition) = length (target definition) ->
  0 <= smoothstep p 0 1 <= 1 /\
  exists t insts,
    ornament_t p (weight definition) = Some t /\ 0 <= t <= 1 /\
    OrnamentInstances definition p = Some insts /\
    insts = map (fun cg => place (fst cg) (snd cg) t)
                (combine (chaos definition) (target definition)) /\
    Forall2 (fun cg i =>
               Vector3.on_segment (fst cg) (snd cg) (position i) /\
               0.12 <= scale i <= 0.16)
            (combine (chaos definition) (target definition)) insts.
Proof.
  intros Hw Hlen. split; [apply smoothstep_unit |].
  destruct (ornament_t_unit p _ Hw) as (t & Ht & Hunit).
  exists t, (map (fun cg => place (fst cg) (snd cg) t)
                 (combine (chaos definition) (target definition))).
  repeat split; try apply Hunit; try assumption.
  - unfold OrnamentInstances. now apply ornament_loop_eq.
  - induction (combine (chaos definition) (target definition))
      as [| [c g] l IH]; simpl; constructor; [| exact IH].
    split; [now apply lerp_on_segment | now apply scale_bounds].
Qed.

Lemma ornament_frame_clamped_witness :
  let definition :=
    {| chaos := [Vector3.new 1 0 0]; target := [Vector3.new 1.2 0 0];
       weight := light_weight |} in
  0 <= smoothstep 2 0 1 <= 1 /\
  exists t insts,
    ornament_t 2 (weight definition) = Some t /\ 0 <= t <= 1 /\
    OrnamentInstances definition 2 = Some insts /\
    insts = map (fun cg => place (fst cg) (snd cg) t)
                (combine (chaos definition) (target definition)) /\
    Forall2 (fun cg i =>
               Vector3.on_segment (fst cg) (snd cg) (position i) /\
               0.12 <= scale i <= 0.16)
            (combine (chaos definition) (target definition)) insts.
Proof.
  intros definition. apply (ornament_frame_clamped definition 2).
  - simpl. unfold light_weight. lra.
  - reflexivity.
Defined.

(** C10, as stated, fails where the interpolated point is the origin:
    with chaos point (1.2,0,0), target point (-1.2,0,0) and progress
    1/2 the shader normalises the zero vector and displays no
    position at all. *)
Lemma shimmer_undefined_at_origin :
  GLSL.mix (Vector3.new 1.2 0 0) (Vector3.new (-1.2) 0 0) (1 / 2)
    = Vector3.new 0 0 0 /\
  ~ exists d,
      foliage_vertex (1 / 2) 0 (Vector3.new 1.2 0 0)
        (Vector3.new (-1.2) 0 0) 0 = Some d /\
      Vector3.length
        (Vector3.sub d
           (GLSL.mix (Vector3.new 1.2 0 0) (Vector3.new (-1.2) 0 0) (1 / 2)))
      <= 0.05.
Proof.
  assert (GLSL.mix (Vector3.new 1.2 0 0) (Vector3.new (-1.2) 0 0) (1 / 2)
          = Vector3.new 0 0 0) as Hmix
    by (apply vector_eq; simpl; lra).
  split; [exact Hmix |].
  intros (d & Hd & _). unfold foliage_vertex in Hd. cbv zeta in Hd.
  rewrite Hmix, normalize_undefined in Hd by (apply length_on_x_axis; lra).
  discriminate.
Qed.

(** C10, amended: for every foliage particle, progress value and time
    value at which the interpolated point
    [lerp(chaosPosition, targetPosition, progress)] is not the origin,
    the vertex shader displays a position whose difference from that
    point has Euclidean norm [|sin(time * 1.5 + sparkle * 12)| * 0.05],
    at most 0.05. *)
Theorem shimmer_bounded (p uTime sparkle : R) (c g : Vector3.t) :
  Vector3.length (GLSL.mix c g p) <> 0 ->
  GLSL.mix c g p = Vector3.lerp c g p /\
  exists d,
    foliage_vertex p uTime c g sparkle = Some d /\
    Vector3.length (Vector3.sub d (GLSL.mix c g p))
      = Rabs (sin (uTime * 1.5 + sparkle * 12)) * 0.05 /\
    Vector3.length (Vector3.sub d (GLSL.mix c g p)) <= 0.05.
Proof.
  intros Hm. split; [now rewrite mix_combine, lerp_combine |].
  eexists. split; [now apply foliage_vertex_defined |].
  rewrite add_sub_cancel, length_scale.
  rewrite (normalize_unit (GLSL.mix c g p))
    by now apply normalize_defined.
  rewrite Rmult_1_r. split; [| apply wave_bound].
  unfold wave. rewrite Rabs_mult, (Rabs_right 0.05) by lra. reflexivity.
Qed.

Lemma shimmer_bounded_witness :
  GLSL.mix (Vector3.new 1 0 0) (Vector3.new 1.2 0 0) 1
    = Vector3.lerp (Vector3.new 1 0 0) (Vector3.new 1.2 0 0) 1 /\
  exists d,
    foliage_vertex 1 (PI / 3) (Vector3.new 1 0 0) (Vector3.new 1.2 0 0) 0
      = Some d /\
    Vector3.length
      (Vector3.sub d (GLSL.mix (Vector3.new 1 0 0) (Vector3.new 1.2 0 0) 1))
      = Rabs (sin (PI / 3 * 1.5 + 0 * 12)) * 0.05 /\
    Vector3.length
      (Vector3.sub d (GLSL.mix (Vector3.new 1 0 0) (Vector3.new 1.2 0 0) 1))
      <= 0.05.
Proof.
  apply (shimmer_bounded 1 (PI / 3) 0
           (Vector3.new 1 0 0) (Vector3.new 1.2 0 0)).
  replace (GLSL.mix (Vector3.new 1 0 0) (Vector3.new 1.2 0 0) 1)
    with (Vector3.new 1.2 0 0) by (apply vector_eq; simpl; lra).
  rewrite length_on_x_axis; lra.
Defined.

End DisplayedPositions.

(** ** Morph controller *)

Section Damping.

Import MathUtils.

(** The interpolation fraction of a damping step with a non-negative
    rate over a non-negative time is in [0,1). *)
Lemma damp_fraction (lambda dt : R) :
  0 <= lambda -> 0 <= dt -> 0 <= 1 - exp (- lambda * dt) < 1.
Proof.
  intros Hl Hd. pose proof (exp_pos (- lambda * dt)) as Hpos.
  assert (exp (- lambda * dt) <= 1) as Hle.
  { rewrite <- exp_0. apply exp_monotone. nra. }
  lra.
Qed.

Lemma lerp_between (a b t : R) :
  0 <= t <= 1 -> Rmin a b <= lerp a b t <= Rmax a b.
Proof.
  intros Ht. unfold lerp, Rmin, Rmax.
  destruct (Rle_dec a b); split; nra.
Qed.

Lemma damp_between (a b lambda dt : R) :
  0 <= lambda -> 0 <= dt ->
  Rmin a b <= damp a b lambda dt <= Rmax a b.
Proof.
  intros Hl Hd. apply lerp_between.
  pose proof (damp_fraction lambda dt Hl Hd). lra.
Qed.

Lemma damp_in_unit (p T lambda dt : R) :
  in_unit p -> in_unit T -> 0 <= lambda -> 0 <= dt ->
  in_unit (damp p T lambda dt).
Proof.
  unfold in_unit. intros Hp HT Hl Hd.
  pose proof (damp_between p T lambda dt Hl Hd) as Hb.
  unfold Rmin, Rmax in Hb. destruct (Rle_dec p T); lra.
Qed.

Lemma speed_nonneg : 0 <= speed.
Proof. unfold speed. lra. Qed.

Lemma target_in_unit (m : TreeMode) : in_unit (target_of m).
Proof. unfold in_unit. destruct m; simpl; lra. Qed.

Lemma frame_in_unit (m : TreeMode) (p delta : R) :
  in_unit p -> 0 <= delta -> in_unit (LuxuryScene_frame m p delta).
Proof.
  intros Hp Hd. unfold LuxuryScene_frame.
  apply damp_in_unit; auto using target_in_unit, speed_nonneg.
Qed.

Lemma trace_in_unit (frames : list (TreeMode * R)) :
  forall p, in_unit p -> Forall (fun f => 0 <= snd f) frames ->
            Forall in_unit (progress_trace p frames).
Proof.
  induction frames as [| [m d] rest IH]; intros p Hp Hall; simpl.
  - constructor.
  - inversion Hall as [| ? ? Hd Hrest]; subst. simpl in Hd.
    pose proof (frame_in_unit m p d Hp Hd) as Hstep.
    constructor; [exact Hstep | now apply IH].
Qed.

(** C4: from a progress value in [0,1], one damping step toward a
    target of 0 or 1, at any non-negative damping rate and over any
    non-negative frame delta, returns a value in [0,1]; and along any
    sequence of frame updates of the scene (whatever the mode is at
    each frame) every value of the progress scalar is in [0,1]. *)
Theorem progress_stays_in_unit_interval
    (p T lambda dt : R) (frames : list (TreeMode * R)) :
  0 <= p <= 1 -> T = 0 \/ T = 1 -> 0 <= lambda -> 0 <= dt ->
  Forall (fun f => 0 <= snd f) frames ->
  0 <= damp p T lambda dt <= 1 /\
  Forall (fun q => 0 <= q <= 1) (progress_trace p frames).
Proof.
  intros Hp HT Hl Hd Hall. split.
  - apply damp_in_unit; try assumption.
    unfold in_unit. destruct HT as [-> | ->]; lra.
  - now apply trace_in_unit.
Qed.

Lemma progress_stays_in_unit_interval_witness :
  0 <= damp (1 / 2) 0 speed (1 / 60) <= 1 /\
  Forall (fun q => 0 <= q <= 1)
         (progress_trace (1 / 2) [(CHAOS, 1 / 60); (FORMED, 1 / 30)]).
Proof.
  apply (progress_stays_in_unit_interval (1 / 2) 0 speed (1 / 60)).
  - lra.
  - left. reflexivity.
  - unfold speed. lra.
  - lra.
  - repeat constructor; simpl; lra.
Defined.

(** Damping toward 0 multiplies the value by [exp (- speed * delta)]. *)
Lemma frame_toward_chaos (p delta : R) :
  LuxuryScene_frame CHAOS p delta = p * exp (- speed * delta).
Proof. unfold LuxuryScene_frame, damp, lerp. simpl. ring. Qed.

Lemma chaos_trace_descends (deltas : list R) :
  forall p, 0 < p -> Forall (fun d => 0 <= d) deltas ->
    Sorted Rge (p :: progress_trace p (map (fun d => (CHAOS, d)) deltas)) /\
    Forall (fun q => 0 < q <= p)
           (progress_trace p (map (fun d => (CHAOS, d)) deltas)).
Proof.
  induction deltas as [| d rest IH]; intros p Hp Hall; simpl.
  - split; repeat constructor.
  - inversion Hall as [| ? ? Hd Hrest]; subst.
    pose proof (damp_fraction speed d speed_nonneg Hd) as Hf.
    pose proof (frame_toward_chaos p d) as Heq.
    assert (0 < LuxuryScene_frame CHAOS p d <= p) as Hstep
      by (rewrite Heq; nra).
    destruct (IH (LuxuryScene_frame CHAOS p d) (proj1 Hstep) Hrest)
      as [Hsorted Hbound].
    split.
    + constructor; [exact Hsorted |]. constructor. lra.
    + constructor; [exact Hstep |].
      eapply Forall_impl; [| exact Hbound]. simpl. intros q Hq. lra.
Qed.

Lemma last_cons (a d : R) (l : list R) : last (a :: l) d = last l a.
Proof.
  revert a d. induction l as [| b l IH]; intros a d; [reflexivity |].
  change (last (a :: b :: l) d) with (last (b :: l) d).
  rewrite !IH. reflexivity.
Qed.

(** After frames at CHAOS the progress is the initial value decayed
    exponentially in the total time elapsed. *)
Lemma chaos_trace_last (deltas : list R) :
  forall p,
    last (progress_trace p (map (fun d => (CHAOS, d)) deltas)) p
    = p * exp (- speed * fold_right Rplus 0 deltas).
Proof.
  induction deltas as [| d rest IH]; intros p;
    cbn [map progress_trace fold_right].
  - simpl. rewrite Rmult_0_r, exp_0. ring.
  - rewrite last_cons, IH, frame_toward_chaos.
    replace (- speed * (d + fold_right Rplus 0 rest))
      with (- speed * d + - speed * fold_right Rplus 0 rest) by ring.
    rewrite exp_plus. ring.
Qed.

(** C5: for every progress value, every target value and every
    non-negative frame delta, the damped update of the scene returns a
    value between the current value and the target, both included;
    and from progress 1, the initial value of a FORMED scene, with the
    mode at CHAOS (target 0), the per-frame progress values never
    increase, stay above 0, and end at [exp (- speed * total time)]. *)
Theorem damp_approaches_without_overshoot
    (p T delta : R) (deltas : list R) :
  0 <= delta -> Forall (fun d => 0 <= d) deltas ->
  Rmin p T <= damp p T speed delta <= Rmax p T /\
  Sorted Rge (initial_progress FORMED ::
              progress_trace (initial_progress FORMED)
                (map (fun d => (CHAOS, d)) deltas)) /\
  Forall (fun q => 0 < q <= 1)
         (progress_trace (initial_progress FORMED)
            (map (fun d => (CHAOS, d)) deltas)) /\
  last (progress_trace (initial_progress FORMED)
          (map (fun d => (CHAOS, d)) deltas)) (initial_progress FORMED)
  = exp (- speed * fold_right Rplus 0 deltas).
Proof.
  intros Hd Hall. split; [| rewrite <- and_assoc; split].
  - apply damp_between; [apply speed_nonneg | assumption].
  - apply chaos_trace_descends; [simpl; lra | assumption].
  - rewrite chaos_trace_last. simpl. ring.
Qed.

Lemma damp_approaches_without_overshoot_witness :
  Rmin (1 / 4) 1 <= damp (1 / 4) 1 speed (1 / 60) <= Rmax (1 / 4) 1 /\
  Sorted Rge (initial_progress FORMED ::
              progress_trace (initial_progress FORMED)
                (map (fun d => (CHAOS, d)) [1 / 60; 1 / 30])) /\
  Forall (fun q => 0 < q <= 1)
         (progress_trace (initial_progress FORMED)
            (map (fun d => (CHAOS, d)) [1 / 60; 1 / 30])) /\
  last (progress_trace (initial_progress FORMED)
          (map (fun d => (CHAOS, d)) [1 / 60; 1 / 30]))
       (initial_progress FORMED)
  = exp (- speed * fold_right Rplus 0 [1 / 60; 1 / 30]).
Proof.
  apply (damp_approaches_without_overshoot (1 / 4) 1 (1 / 60)
           [1 / 60; 1 / 30]).
  - lra.
  - repeat constructor; lra.
Defined.

End Damping.

(** ** Point samplers *)

Section Samplers.

Lemma cbrt_pos (a : R) : 0 < a -> cbrt a = Rpower a (/ 3).
Proof. intros Ha. unfold cbrt. destruct (Rlt_dec 0 a); [reflexivity | lra]. Qed.

Lemma cbrt_0 : cbrt 0 = 0.
Proof.
  unfold cbrt. destruct (Rlt_dec 0 0); [lra |].
  destruct (Rlt_dec 0 0); [lra | reflexivity].
Qed.

Lemma cbrt_neg (a : R) : a < 0 -> cbrt a = - Rpower (- a) (/ 3).
Proof.
  intros Ha. unfold cbrt. destruct (Rlt_dec 0 a); [lra |].
  destruct (Rlt_dec a 0); [reflexivity | lra].
Qed.

Lemma Rpower_third_cube (a : R) :
  0 < a -> Rpower a (/ 3) * Rpower a (/ 3) * Rpower a (/ 3) = a.
Proof.
  intros Ha. rewrite <- !Rpower_plus.
  replace (/ 3 + / 3 + / 3) with 1 by lra. now apply Rpower_1.
Qed.

(** [cbrt] is the cube root. *)
Lemma cbrt_cube (a : R) : cbrt a * cbrt a * cbrt a = a.
Proof.
  destruct (Rtotal_order a 0) as [Hneg | [-> | Hpos]].
  - rewrite cbrt_neg by assumption.
    pose proof (Rpower_third_cube (- a) ltac:(lra)). lra.
  - rewrite cbrt_0. ring.
  - rewrite cbrt_pos by assumption. now apply Rpower_third_cube.
Qed.

Lemma cbrt_nonneg (a : R) : 0 <= a -> 0 <= cbrt a.
Proof.
  intros [Ha | <-].
  - rewrite cbrt_pos by assumption. left. apply exp_pos.
  - rewrite cbrt_0. lra.
Qed.

Lemma cbrt_increasing (a b : R) : 0 <= a < b -> cbrt a < cbrt b.
Proof.
  intros [[Ha | <-] Hab].
  - rewrite !cbrt_pos by lra. apply Rlt_Rpower_l; lra.
  - rewrite cbrt_0, cbrt_pos by assumption. apply exp_pos.
Qed.

Lemma cbrt_of_cube (c : R) : 0 < c -> cbrt (c * c * c) = c.
Proof.
  intros Hc. assert (0 < c * c * c) as Hccc
    by (repeat apply Rmult_lt_0_compat; assumption).
  rewrite cbrt_pos by assumption. unfold Rpower.
  rewrite !ln_mult by (try apply Rmult_lt_0_compat; assumption).
  replace (/ 3 * (ln c + ln c + ln c)) with (ln c) by lra.
  now apply exp_ln.
Qed.

Lemma cbrt_eighth : cbrt (1 / 8) = 1 / 2.
Proof.
  replace (1 / 8) with (1 / 2 * (1 / 2) * (1 / 2)) by lra.
  apply cbrt_of_cube. lra.
Qed.

Lemma cbrt_one : cbrt 1 = 1.
Proof.
  replace 1 with (1 * 1 * 1) at 1 by ring. apply cbrt_of_cube. lra.
Qed.

Lemma cbrt_below_half (w : R) : 0 <= w -> (cbrt w < 1 / 2 <-> w < 1 / 8).
Proof.
  intros Hw. split; intros H.
  - destruct (Rlt_le_dec w (1 / 8)) as [Hlt | Hge]; [assumption |].
    destruct Hge as [Hgt | Heq].
    + pose proof (cbrt_increasing (1 / 8) w ltac:(lra)) as Hinc.
      rewrite cbrt_eighth in Hinc. lra.
    + rewrite <- Heq, cbrt_eighth in H. lra.
  - rewrite <- cbrt_eighth. apply cbrt_increasing. lra.
Qed.

(** The norm of the point in spherical coordinates is its radius. *)
Lemma spherical_norm (r phi theta : R) :
  0 <= r ->
  Vector3.length (Vector3.new (r * sin phi * cos theta)
                              (r * sin phi * sin theta)
                              (r * cos phi)) = r.
Proof.
  intros Hr. unfold Vector3.length. simpl.
  pose proof (sin2_cos2 phi) as Hphi. pose proof (sin2_cos2 theta) as Hth.
  unfold Rsqr in Hphi, Hth.
  replace (r * sin phi * cos theta * (r * sin phi * cos theta) +
           r * sin phi * sin theta * (r * sin phi * sin theta) +
           r * cos phi * (r * cos phi))
    with (r * r * (sin phi * sin phi *
                     (sin theta * sin theta + cos theta * cos theta)
                   + cos phi * cos phi)) by ring.
  rewrite Hth, Rmult_1_r, Hphi, Rmult_1_r. now apply sqrt_square.
Qed.

(** C6: with the three draws of the sphere sampler as inputs [u], [v]
    and [w], [w] in [0,1): for every radius [R > 0] the norm of the
    returned point is [cbrt(w) * R], where [cbrt(w)] cubed is [w]; the
    norm is at most [R]; and it is below [R/2] exactly when
    [w < 1/8], an event of probability 1/8 under a uniform [w]. *)
Theorem sphere_sample_radius (radius u v w : R) :
  0 < radius -> 0 <= u < 1 -> 0 <= v < 1 -> 0 <= w < 1 ->
  Vector3.length (randomPointInSphere radius u v w) = cbrt w * radius /\
  cbrt w * cbrt w * cbrt w = w /\
  Vector3.length (randomPointInSphere radius u v w) <= radius /\
  (Vector3.length (randomPointInSphere radius u v w) < radius / 2
   <-> w < 1 / 8).
Proof.
  intros HR _ _ Hw.
  assert (Vector3.length (randomPointInSphere radius u v w)
          = cbrt w * radius) as Hnorm.
  { unfold randomPointInSphere. cbv zeta. apply spherical_norm.
    apply Rmult_le_pos; [apply cbrt_nonneg |]; lra. }
  rewrite Hnorm.
  pose proof (cbrt_nonneg w (proj1 Hw)) as Hc0.
  pose proof (cbrt_increasing w 1 Hw) as Hc1. rewrite cbrt_one in Hc1.
  pose proof (cbrt_below_half w (proj1 Hw)) as [Hhalf1 Hhalf2].
  repeat split.
  - apply cbrt_cube.
  - nra.
  - intros Hlt. apply Hhalf1. nra.
  - intros Hlt. specialize (Hhalf2 Hlt). nra.
Qed.

Lemma sphere_sample_radius_witness :
  Vector3.length (randomPointInSphere 4.5 (1 / 4) (1 / 2) (1 / 27))
    = cbrt (1 / 27) * 4.5 /\
  cbrt (1 / 27) * cbrt (1 / 27) * cbrt (1 / 27) = 1 / 27 /\
  Vector3.length (randomPointInSphere 4.5 (1 / 4) (1 / 2) (1 / 27)) <= 4.5 /\
  (Vector3.length (randomPointInSphere 4.5 (1 / 4) (1 / 2) (1 / 27))
     < 4.5 / 2 <-> 1 / 27 < 1 / 8).
Proof.
  apply (sphere_sample_radius 4.5 (1 / 4) (1 / 2) (1 / 27)); lra.
Defined.

Lemma planar_norm (rho angle : R) :
  sqrt (rho * cos angle * (rho * cos angle) +
        rho * sin angle * (rho * sin angle)) = Rabs rho.
Proof.
  pose proof (sin2_cos2 angle) as Ha. unfold Rsqr in Ha.
  replace (rho * cos angle * (rho * cos angle) +
           rho * sin angle * (rho * sin angle))
    with (Rsqr rho * (sin angle * sin angle + cos angle * cos angle))
    by (unfold Rsqr; ring).
  rewrite Ha, Rmult_1_r. apply sqrt_Rsqr_abs.
Qed.

(** C7: with the three draws of the cone sampler as inputs in [0,1):
    for every height [h > 0] and base radius [B >= 0] the sampler
    returns a point; its pre-shift height [y0] is in [0,h); its [y]
    coordinate is [y0 - 0.45 * h], in [-0.45 * h, 0.55 * h); and its
    distance from the vertical axis is at most
    [(1 - y0 / h) * B + 0.075]. *)
Theorem cone_sample_bounds (height baseRadius d1 d2 d3 : R) :
  0 < height -> 0 <= baseRadius ->
  0 <= d1 < 1 -> 0 <= d2 < 1 -> 0 <= d3 < 1 ->
  exists P y0,
    randomPointOnCone height baseRadius d1 d2 d3 = Some P /\
    y0 = d1 * height /\ 0 <= y0 < height /\
    Vector3.y P = y0 - 0.45 * height /\
    - 0.45 * height <= Vector3.y P < 0.55 * height /\
    sqrt (Vector3.x P * Vector3.x P + Vector3.z P * Vector3.z P)
      <= (1 - y0 / height) * baseRadius + 0.075.
Proof.
  intros Hh HB Hd1 _ Hd3. unfold randomPointOnCone.
  destruct (Req_dec_T height 0) as [Hz | Hnz]; [lra |]. cbv zeta.
  eexists. exists (d1 * height). split; [reflexivity |]. simpl.
  assert (0 <= d1 * height < height) as Hy0 by nra.
  replace (d1 * height / height) with d1 by (field; assumption).
  repeat split; try lra.
  rewrite planar_norm.
  assert (0 <= (1 - d1) * baseRadius) as Hrad by (apply Rmult_le_pos; lra).
  apply Rabs_le. lra.
Qed.

Lemma cone_sample_bounds_witness :
  exists P y0,
    randomPointOnCone 5.2 2.2 (1 / 2) (1 / 4) (1 / 2) = Some P /\
    y0 = 1 / 2 * 5.2 /\ 0 <= y0 < 5.2 /\
    Vector3.y P = y0 - 0.45 * 5.2 /\
    - 0.45 * 5.2 <= Vector3.y P < 0.55 * 5.2 /\
    sqrt (Vector3.x P * Vector3.x P + Vector3.z P * Vector3.z P)
      <= (1 - y0 / 5.2) * 2.2 + 0.075.
Proof.
  apply (cone_sample_bounds 5.2 2.2 (1 / 2) (1 / 4) (1 / 2)); lra.
Defined.

End Samplers.

(** ** Mode driver *)

Section ModeDriver.

Open Scope N_scope.

Lemma period_pos : 0 < period.
Proof. reflexivity. Qed.

Lemma flip_involutive (m : TreeMode) : flip (flip m) = m.
Proof. destruct m; reflexivity. Qed.

Lemma flips_succ (n : N) (m : TreeMode) :
  flips (N.succ n) m = flip (flips n m).
Proof. unfold flips. apply N.iter_succ. Qed.

Lemma well_formed_mount : well_formed mount.
Proof. split; reflexivity. Qed.

Lemma well_formed_step (ev : Event) (st : AppState) :
  well_formed st -> well_formed (step ev st).
Proof.
  destruct st as [m a [e |]]; unfold well_formed; simpl.
  - intros [-> He]. destruct ev; simpl; auto.
    unfold due, advance; cbn [interval autoShift mode].
    destruct (N.eqb_spec (N.succ e) period) as [Heq | Hne];
      cbn [interval_callback interval autoShift mode];
      (split; [reflexivity | lia || apply period_pos]).
  - intros ->. destruct ev; simpl; auto.
    split; [reflexivity | apply period_pos].
Qed.

Lemma well_formed_run (evs : list Event) :
  forall st, well_formed st -> well_formed (run evs st).
Proof.
  induction evs as [| ev evs IH]; intros st Hwf; simpl; [assumption |].
  apply IH. now apply well_formed_step.
Qed.

Lemma reachable_well_formed (st : AppState) :
  reachable st -> well_formed st.
Proof.
  intros [evs <-]. apply well_formed_run, well_formed_mount.
Qed.

(** Division and remainder of a successor. *)
Lemma succ_div_mod (P a : N) :
  0 < P ->
  if N.succ (a mod P) =? P
  then N.succ a / P = N.succ (a / P) /\ N.succ a mod P = 0
  else N.succ a / P = a / P /\ N.succ a mod P = N.succ (a mod P).
Proof.
  intros HP.
  pose proof (N.div_mod' a P) as Hdm.
  pose proof (N.mod_lt a P ltac:(lia)) as Hlt.
  destruct (N.eqb_spec (N.succ (a mod P)) P) as [Heq | Hne]; split; symmetry.
  - apply N.div_unique with (r := 0); lia.
  - apply N.mod_unique with (q := N.succ (a / P)); lia.
  - apply N.div_unique with (r := N.succ (a mod P)); lia.
  - apply N.mod_unique with (q := a / P); lia.
Qed.

(** With an interval set [e] milliseconds ago, [ms] more milliseconds
    run the callback once for every whole period completed. *)
Lemma iter_tick_armed (st : AppState) (e ms : N) :
  interval st = Some e -> e < period ->
  N.iter ms tick (st, 0) =
  ({| mode := flips ((e + ms) / period) (mode st);
      autoShift := autoShift st;
      interval := Some ((e + ms) mod period) |},
   (e + ms) / period).
Proof.
  intros Hint He. induction ms as [| ms IH] using N.peano_ind.
  - rewrite N.add_0_r, N.div_small, N.mod_small by assumption.
    destruct st; simpl in *; subst; reflexivity.
  - rewrite N.iter_succ, IH, N.add_succ_r.
    pose proof (succ_div_mod period (e + ms) period_pos) as Hsucc.
    unfold tick, step, due, advance; cbn [fst snd interval mode autoShift].
    destruct (N.succ ((e + ms) mod period) =? period);
      destruct Hsucc as [-> ->]; [rewrite flips_succ |]; reflexivity.
Qed.

(** With no interval set, time changes nothing. *)
Lemma iter_tick_idle (st : AppState) (ms : N) :
  interval st = None -> N.iter ms tick (st, 0) = (st, 0).
Proof.
  intros Hint. induction ms as [| ms IH] using N.peano_ind;
    [reflexivity |].
  rewrite N.iter_succ, IH.
  unfold tick, step, due, advance; cbn [fst snd]. rewrite Hint.
  destruct st; simpl in *; subst; reflexivity.
Qed.

Lemma flips_parity (n : N) (m : TreeMode) :
  flips n m = if N.even n then m else flip m.
Proof.
  induction n as [| n IH] using N.peano_ind; [reflexivity |].
  rewrite flips_succ, IH, N.even_succ, <- N.negb_even.
  destruct (N.even n); simpl; [reflexivity | apply flip_involutive].
Qed.

(** C8: in every state the application can reach, over any number of
    milliseconds without a click: the timer leaves the auto-shift flag
    alone and changes the mode only by flipping it, once per run of the
    interval's callback, where a flip maps FORMED to CHAOS and CHAOS to
    FORMED, so the mode is the old one after an even number of runs and
    the other one after an odd number; while auto-shift is enabled an
    interval is set, its callback runs once for every completed period
    of 6500 ms, and the mode is unchanged until the running period
    completes and is the other mode at that moment; while auto-shift is
    disabled the callback never runs and the state does not change. *)
Theorem auto_shift_flips_once_per_period (st : AppState) (ms : N) :
  reachable st ->
  period = 6500 /\
  autoShift (elapse ms st) = autoShift st /\
  mode (elapse ms st) = flips (callbacks ms st) (mode st) /\
  (autoShift st = true ->
     exists e, interval st = Some e /\ e < period /\
               callbacks ms st = (e + ms) / period) /\
  (autoShift st = false -> callbacks ms st = 0 /\ elapse ms st = st) /\
  flip FORMED = CHAOS /\ flip CHAOS = FORMED /\
  mode (interval_callback st)
    = match mode st with FORMED => CHAOS | CHAOS => FORMED end /\
  mode (elapse ms st)
    = (if N.even (callbacks ms st) then mode st
       else match mode st with FORMED => CHAOS | CHAOS => FORMED end) /\
  (autoShift st = true ->
     exists e, interval st = Some e /\
       (ms < 6500 - e -> mode (elapse ms st) = mode st) /\
       mode (elapse (6500 - e) st)
         = match mode st with FORMED => CHAOS | CHAOS => FORMED end /\
       callbacks (6500 - e) st = 1).
Proof.
  intros Hreach. apply reachable_well_formed in Hreach.
  unfold well_formed in Hreach.
  assert (forall n, mode (elapse n st) = flips (callbacks n st) (mode st))
    as Hmode.
  { intros n. unfold elapse, callbacks.
    destruct (interval st) as [e |] eqn:Hint.
    - destruct Hreach as [_ He].
      rewrite (iter_tick_armed st e n Hint He). reflexivity.
    - rewrite (iter_tick_idle st n Hint). reflexivity. }
  assert (forall m, flip m = match m with FORMED => CHAOS | CHAOS => FORMED end)
    as Hflip by (intros []; reflexivity).
  split; [reflexivity |].
  split.
  { unfold elapse. destruct (interval st) as [e |] eqn:Hint.
    - destruct Hreach as [_ He].
      rewrite (iter_tick_armed st e ms Hint He). reflexivity.
    - rewrite (iter_tick_idle st ms Hint). reflexivity. }
  split; [apply Hmode |].
  split.
  { intros Hauto. destruct (interval st) as [e |] eqn:Hint;
      [| congruence].
    destruct Hreach as [_ He]. exists e. repeat split; try assumption.
    unfold callbacks. rewrite (iter_tick_armed st e ms Hint He). reflexivity. }
  split.
  { intros Hauto. destruct (interval st) as [e |] eqn:Hint.
    - destruct Hreach as [Hon _]. congruence.
    - unfold callbacks, elapse. rewrite (iter_tick_idle st ms Hint).
      split; reflexivity. }
  split; [reflexivity |]. split; [reflexivity |].
  split; [apply Hflip |].
  split.
  { rewrite Hmode, flips_parity, Hflip. reflexivity. }
  intros Hauto. destruct (interval st) as [e |] eqn:Hint; [| congruence].
  destruct Hreach as [_ He]. unfold period in He. exists e.
  split; [reflexivity |].
  assert (forall n, callbacks n st = (e + n) / period) as Hcb.
  { intros n. unfold callbacks.
    rewrite (iter_tick_armed st e n Hint He). reflexivity. }
  repeat split.
  - intros Hms. rewrite Hmode, Hcb.
    rewrite N.div_small by (unfold period; lia). reflexivity.
  - rewrite Hmode, Hcb.
    replace (e + (6500 - e)) with period by (unfold period; lia).
    rewrite N.div_same by (unfold period; lia).
    rewrite flips_parity, Hflip. reflexivity.
  - rewrite Hcb.
    replace (e + (6500 - e)) with period by (unfold period; lia).
    apply N.div_same. unfold period. lia.
Qed.

Lemma auto_shift_flips_once_per_period_witness :
  period = 6500 /\
  autoShift (elapse 13000 mount) = autoShift mount /\
  mode (elapse 13000 mount) = flips (callbacks 13000 mount) (mode mount) /\
  (autoShift mount = true ->
     exists e, interval mount = Some e /\ e < period /\
               callbacks 13000 mount = (e + 13000) / period) /\
  (autoShift mount = false ->
     callbacks 13000 mount = 0 /\ elapse 13000 mount = mount) /\
  flip FORMED = CHAOS /\ flip CHAOS = FORMED /\
  mode (interval_callback mount)
    = match mode mount with FORMED => CHAOS | CHAOS => FORMED end /\
  mode (elapse 13000 mount)
    = (if N.even (callbacks 13000 mount) then mode mount
       else match mode mount with FORMED => CHAOS | CHAOS => FORMED end) /\
  (autoShift mount = true ->
     exists e, interval mount = Some e /\
       (13000 < 6500 - e -> mode (elapse 13000 mount) = mode mount) /\
       mode (elapse (6500 - e) mount)
         = match mode mount with FORMED => CHAOS | CHAOS => FORMED end /\
       callbacks (6500 - e) mount = 1).
Proof.
  apply (auto_shift_flips_once_per_period mount 13000).
  exists []. reflexivity.
Defined.

End ModeDriver.

(** * Further properties of the samplers *)

Section SamplerShape.

(** The sphere sampler draws the cosine of the polar angle uniformly:
    the [z] coordinate is the radius draw times [2 * v - 1], linear in
    [v], and the squared distance from the [z] axis is what remains of
    the squared radius. *)
Theorem sphere_sample_height (radius u v w : R) :
  0 <= v < 1 ->
  Vector3.z (randomPointInSphere radius u v w)
    = cbrt w * radius * (2 * v - 1) /\
  Vector3.x (randomPointInSphere radius u v w)
    * Vector3.x (randomPointInSphere radius u v w)
  + Vector3.y (randomPointInSphere radius u v w)
    * Vector3.y (randomPointInSphere radius u v w)
    = (cbrt w * radius) * (cbrt w * radius)
      * (1 - (2 * v - 1) * (2 * v - 1)).
Proof.
  intros Hv. unfold randomPointInSphere. cbv zeta. simpl.
  pose proof (cos_acos (2 * v - 1) ltac:(lra)) as Hcos.
  pose proof (sin2_cos2 (acos (2 * v - 1))) as Hphi.
  pose proof (sin2_cos2 (u * 2 * PI)) as Hth.
  unfold Rsqr in Hphi, Hth. rewrite Hcos in Hphi. rewrite Hcos. split.
  - reflexivity.
  - set (sp := sin (acos (2 * v - 1))) in *.
    set (st := sin (u * 2 * PI)) in *. set (ct := cos (u * 2 * PI)) in *.
    replace (cbrt w * radius * sp * ct * (cbrt w * radius * sp * ct) +
             cbrt w * radius * sp * st * (cbrt w * radius * sp * st))
      with (cbrt w * radius * (cbrt w * radius) * (sp * sp)
            * (st * st + ct * ct)) by ring.
    rewrite Hth, Rmult_1_r.
    replace (sp * sp) with (1 - (2 * v - 1) * (2 * v - 1)) by lra.
    reflexivity.
Qed.

Lemma sphere_sample_height_witness :
  Vector3.z (randomPointInSphere 4.5 (1 / 4) (3 / 4) (1 / 8))
    = cbrt (1 / 8) * 4.5 * (2 * (3 / 4) - 1) /\
  Vector3.x (randomPointInSphere 4.5 (1 / 4) (3 / 4) (1 / 8))
    * Vector3.x (randomPointInSphere 4.5 (1 / 4) (3 / 4) (1 / 8))
  + Vector3.y (randomPointInSphere 4.5 (1 / 4) (3 / 4) (1 / 8))
    * Vector3.y (randomPointInSphere 4.5 (1 / 4) (3 / 4) (1 / 8))
    = (cbrt (1 / 8) * 4.5) * (cbrt (1 / 8) * 4.5)
      * (1 - (2 * (3 / 4) - 1) * (2 * (3 / 4) - 1)).
Proof.
  apply (sphere_sample_height 4.5 (1 / 4) (3 / 4) (1 / 8)). lra.
Defined.

(** The cone sampler stays within the jitter of the silhouette on both
    sides: the distance from the vertical axis is
    [|radius + jitter|] and differs from the silhouette radius
    [(1 - d1) * baseRadius] at that height by at most 0.075. *)
Theorem cone_sample_hugs_silhouette (height baseRadius d1 d2 d3 : R) :
  0 < height -> 0 <= baseRadius -> 0 <= d1 < 1 -> 0 <= d3 < 1 ->
  exists P,
    randomPointOnCone height baseRadius d1 d2 d3 = Some P /\
    sqrt (Vector3.x P * Vector3.x P + Vector3.z P * Vector3.z P)
      = Rabs ((1 - d1) * baseRadius + (d3 - 0.5) * 0.15) /\
    Rabs (sqrt (Vector3.x P * Vector3.x P + Vector3.z P * Vector3.z P)
          - (1 - d1) * baseRadius) <= 0.075.
Proof.
  intros Hh HB Hd1 Hd3. unfold randomPointOnCone.
  destruct (Req_dec_T height 0) as [Hz | Hnz]; [lra |]. cbv zeta.
  eexists. split; [reflexivity |]. simpl.
  replace (d1 * height / height) with d1 by (field; assumption).
  rewrite planar_norm.
  assert (0 <= (1 - d1) * baseRadius) as Hrad by (apply Rmult_le_pos; lra).
  split; [reflexivity |].
  apply Rabs_le. unfold Rabs at 1 2.
  destruct (Rcase_abs ((1 - d1) * baseRadius + (d3 - 0.5) * 0.15)); lra.
Qed.

Lemma cone_sample_hugs_silhouette_witness :
  exists P,
    randomPointOnCone 5.2 2.2 (1 / 2) (1 / 4) (1 / 4) = Some P /\
    sqrt (Vector3.x P * Vector3.x P + Vector3.z P * Vector3.z P)
      = Rabs ((1 - 1 / 2) * 2.2 + (1 / 4 - 0.5) * 0.15) /\
    Rabs (sqrt (Vector3.x P * Vector3.x P + Vector3.z P * Vector3.z P)
          - (1 - 1 / 2) * 2.2) <= 0.075.
Proof.
  apply (cone_sample_hugs_silhouette 5.2 2.2 (1 / 2) (1 / 4) (1 / 4)); lra.
Defined.

End SamplerShape.

(** * Further properties of the ornament renderer *)

Section OrnamentMotion.

Import MathUtils.

Lemma smoothstep_low (p : R) : p <= 0 -> smoothstep p 0 1 = 0.
Proof.
  intros Hp. unfold smoothstep. destruct (Rle_dec p 0); [reflexivity | lra].
Qed.

Lemma smoothstep_high (p : R) : 1 <= p -> smoothstep p 0 1 = 1.
Proof.
  intros Hp. unfold smoothstep.
  destruct (Rle_dec p 0); [lra |]. destruct (Rle_dec 1 p); [reflexivity | lra].
Qed.

(** The ease never decreases. *)
Lemma smoothstep_monotone (p q : R) :
  p <= q -> smoothstep p 0 1 <= smoothstep q 0 1.
Proof.
  intros Hpq.
  destruct (Rle_dec p 0) as [Hp0 | Hp0].
  { rewrite (smoothstep_low p Hp0). apply smoothstep_unit. }
  destruct (Rle_dec 1 q) as [Hq1 | Hq1].
  { rewrite (smoothstep_high q Hq1). apply smoothstep_unit. }
  rewrite !smoothstep_inside by lra.
  assert (0 <= (q - p) * (3 * (p + q) - 2 * (p * p + p * q + q * q))) as H.
  { apply Rmult_le_pos; [lra |]. nra. }
  lra.
Qed.

Lemma Rpower_one (e : R) : Rpower 1 e = 1.
Proof. unfold Rpower. rewrite ln_1, Rmult_0_r. apply exp_0. Qed.

Lemma ornament_t_low (p w : R) : 0 < w -> p <= 0 -> ornament_t p w = Some 0.
Proof.
  intros Hw Hp. rewrite ornament_t_eq, smoothstep_low by lra.
  apply js_pow_zero. apply Rdiv_lt_0_compat; lra.
Qed.

Lemma ornament_t_high (p w : R) : 0 < w -> 1 <= p -> ornament_t p w = Some 1.
Proof.
  intros Hw Hp. rewrite ornament_t_eq, smoothstep_high by lra.
  rewrite js_pow_pos by lra. now rewrite Rpower_one.
Qed.

(** At the two ends of the morph the renderer is exact, whatever the
    positive weight: at progress 0 or below every ornament sits on its
    chaos point, unrotated, at scale 0.16; at progress 1 or above it
    sits on its target point, rotated by 1.4 pi and 2.2 pi, at scale
    0.12. *)
Theorem ornament_ends_exact (lo hi w : R) (c g : Vector3.t) :
  0 < w -> lo <= 0 -> 1 <= hi ->
  (exists i, ornament_instance lo w c g = Some i /\
     position i = c /\ rotation i = (0, 0, 0) /\ scale i = 0.16) /\
  (exists i, ornament_instance hi w c g = Some i /\
     position i = g /\ rotation i = (PI * 1.4, PI * 2.2, 0) /\
     scale i = 0.12).
Proof.
  intros Hw Hlo Hhi. split.
  - exists (place c g 0). split.
    + apply ornament_instance_eq. now apply ornament_t_low.
    + simpl. repeat split.
      * apply vector_eq; simpl; ring.
      * f_equal. f_equal; ring.
      * lra.
  - exists (place c g 1). split.
    + apply ornament_instance_eq. now apply ornament_t_high.
    + simpl. repeat split.
      * apply vector_eq; simpl; ring.
      * f_equal. f_equal; ring.
      * lra.
Qed.

Lemma ornament_ends_exact_witness :
  (exists i,
     ornament_instance (-1) gift_weight
       (Vector3.new 1 0 0) (Vector3.new 1.2 0 0) = Some i /\
     position i = Vector3.new 1 0 0 /\ rotation i = (0, 0, 0) /\
     scale i = 0.16) /\
  (exists i,
     ornament_instance 2 gift_weight
       (Vector3.new 1 0 0) (Vector3.new 1.2 0 0) = Some i /\
     position i = Vector3.new 1.2 0 0 /\
     rotation i = (PI * 1.4, PI * 2.2, 0) /\ scale i = 0.12).
Proof.
  apply (ornament_ends_exact (-1) 2 gift_weight
           (Vector3.new 1 0 0) (Vector3.new 1.2 0 0)).
  - unfold gift_weight. lra.
  - lra.
  - lra.
Defined.

Lemma js_pow_monotone (s1 s2 e t1 t2 : R) :
  0 <= s1 <= s2 -> 0 < e ->
  js_pow s1 e = Some t1 -> js_pow s2 e = Some t2 -> t1 <= t2.
Proof.
  intros [[Hs1 | <-] Hle] He.
  - rewrite !js_pow_pos by lra. intros [= <-] [= <-].
    apply Rle_Rpower_l; lra.
  - rewrite js_pow_zero by assumption. intros [= <-].
    destruct Hle as [Hs2 | <-].
    + rewrite js_pow_pos by assumption. intros [= <-]. left. apply exp_pos.
    + rewrite js_pow_zero by assumption. intros [= <-]. lra.
Qed.

(** As progress grows an ornament only moves forward: for a positive
    weight the interpolation fraction never decreases with progress, so
    the scale never increases. *)
Theorem ornament_advances_with_progress (p q w : R) (c g : Vector3.t) :
  0 < w -> p <= q ->
  exists tp tq,
    ornament_instance p w c g = Some (place c g tp) /\
    ornament_instance q w c g = Some (place c g tq) /\
    tp <= tq /\ scale (place c g tq) <= scale (place c g tp).
Proof.
  intros Hw Hpq.
  destruct (ornament_t_unit p w Hw) as (tp & Htp & _).
  destruct (ornament_t_unit q w Hw) as (tq & Htq & _).
  exists tp, tq.
  assert (tp <= tq) as Hle.
  { rewrite ornament_t_eq in Htp, Htq by lra.
    apply (js_pow_monotone (smoothstep p 0 1) (smoothstep q 0 1) (1 / w));
      try assumption.
    - split; [apply smoothstep_unit | now apply smoothstep_monotone].
    - apply Rdiv_lt_0_compat; lra. }
  repeat split; try (now apply ornament_instance_eq); try assumption.
  simpl. lra.
Qed.

Lemma ornament_advances_with_progress_witness :
  exists tp tq,
    ornament_instance (1 / 4) light_weight
      (Vector3.new 1 0 0) (Vector3.new 1.2 0 0)
      = Some (place (Vector3.new 1 0 0) (Vector3.new 1.2 0 0) tp) /\
    ornament_instance (3 / 4) light_weight
      (Vector3.new 1 0 0) (Vector3.new 1.2 0 0)
      = Some (place (Vector3.new 1 0 0) (Vector3.new 1.2 0 0) tq) /\
    tp <= tq /\
    scale (place (Vector3.new 1 0 0) (Vector3.new 1.2 0 0) tq)
      <= scale (place (Vector3.new 1 0 0) (Vector3.new 1.2 0 0) tp).
Proof.
  apply (ornament_advances_with_progress (1 / 4) (3 / 4) light_weight).
  - unfold light_weight. lra.
  - lra.
Defined.

(** The three groups of the tree keep one order through the whole
    morph: at every progress value the lights are no further along than
    the globes, the globes no further than the eased progress, and the
    gifts at least as far as the eased progress. *)
Theorem tree_groups_stay_ordered (p : R) :
  exists tl tg tf,
    ornament_t p light_weight = Some tl /\
    ornament_t p globe_weight = Some tg /\
    ornament_t p gift_weight = Some tf /\
    tl <= tg /\ tg <= smoothstep p 0 1 /\ smoothstep p 0 1 <= tf.
Proof.
  assert (0 < light_weight) as Hl by (unfold light_weight; lra).
  assert (0 < globe_weight) as Hg by (unfold globe_weight; lra).
  assert (0 < gift_weight) as Hf by (unfold gift_weight; lra).
  destruct (ornament_t_unit p _ Hl) as (tl & Htl & _).
  destruct (ornament_t_unit p _ Hg) as (tg & Htg & _).
  destruct (ornament_t_unit p _ Hf) as (tf & Htf & _).
  exists tl, tg, tf. repeat split; try assumption.
  - rewrite ornament_t_eq in Htl, Htg by lra.
    apply (js_pow_antitone (smoothstep p 0 1)
             (1 / globe_weight) (1 / light_weight));
      try assumption; [apply smoothstep_unit |].
    apply inv_weight_antitone. unfold light_weight, globe_weight. lra.
  - rewrite ornament_t_eq in Htg by lra.
    apply (js_pow_below _ (1 / globe_weight));
      try assumption; [apply smoothstep_unit |].
    left. apply inv_weight_gt. unfold globe_weight. lra.
  - rewrite ornament_t_eq in Htf by lra.
    apply (js_pow_above _ (1 / gift_weight));
      try assumption; [apply smoothstep_unit |].
    destruct (inv_weight_lt gift_weight) as [H0 H1];
      [unfold gift_weight; lra | lra].
Qed.

End OrnamentMotion.

(** * Further properties of the morph controller *)

Section MorphDynamics.

Import MathUtils.

(** One frame moves the distance to the target by the factor
    [exp (- speed * delta)]. *)
Lemma frame_offset (m : TreeMode) (p delta : R) :
  LuxuryScene_frame m p delta
  = target_of m + (p - target_of m) * exp (- speed * delta).
Proof. unfold LuxuryScene_frame, damp, lerp. ring. Qed.

(** The morph does not depend on the frame rate: two consecutive frames
    in the same mode leave the progress where one frame of the combined
    duration would. *)
Theorem frames_compose (m : TreeMode) (p d1 d2 : R) :
  LuxuryScene_frame m (LuxuryScene_frame m p d1) d2
  = LuxuryScene_frame m p (d1 + d2).
Proof.
  rewrite !frame_offset.
  replace (- speed * (d1 + d2)) with (- speed * d1 + - speed * d2) by ring.
  rewrite exp_plus. ring.
Qed.

Lemma steady_last (m : TreeMode) (deltas : list R) :
  forall p,
    last (progress_trace p (steady m deltas)) p
    = target_of m + (p - target_of m) * exp (- speed * total_time deltas).
Proof.
  unfold steady, total_time.
  induction deltas as [| d rest IH]; intros p;
    cbn [map progress_trace fold_right].
  - simpl. rewrite Rmult_0_r, exp_0. ring.
  - rewrite last_cons, IH, frame_offset.
    replace (- speed * (d + fold_right Rplus 0 rest))
      with (- speed * d + - speed * fold_right Rplus 0 rest) by ring.
    rewrite exp_plus. ring.
Qed.

(** While the mode stays the same, the offset from the target after any
    run of frames is the initial offset times
    [exp (- speed * total time)]: it depends on the total time only,
    not on how the time is cut into frames. *)
Theorem steady_trace_closed_form (m : TreeMode) (deltas : list R) (p : R) :
  last (progress_trace p (steady m deltas)) p - target_of m
  = (p - target_of m) * exp (- speed * total_time deltas).
Proof. rewrite steady_last. ring. Qed.

(** A scene at rest stays at rest: from the initial progress of a mode,
    and as long as the mode does not change, every frame returns that
    same value, whatever the frame deltas. *)
Theorem scene_rests_at_target (m : TreeMode) (deltas : list R) :
  progress_trace (initial_progress m) (steady m deltas)
  = map (fun _ => target_of m) deltas.
Proof.
  unfold initial_progress, steady.
  induction deltas as [| d rest IH]; cbn [map progress_trace];
    [reflexivity |].
  assert (LuxuryScene_frame m (target_of m) d = target_of m) as Hfix
    by (rewrite frame_offset; ring).
  rewrite Hfix, IH. reflexivity.
Qed.

Lemma exp_ten : 1024 <= exp 10.
Proof.
  pose proof (exp_ineq1_le 1) as H1.
  assert (exp 2 = exp 1 * exp 1) as E2
    by (rewrite <- exp_plus; f_equal; lra).
  assert (exp 4 = exp 2 * exp 2) as E4
    by (rewrite <- exp_plus; f_equal; lra).
  assert (exp 8 = exp 4 * exp 4) as E8
    by (rewrite <- exp_plus; f_equal; lra).
  assert (exp 10 = exp 8 * exp 2) as E10
    by (rewrite <- exp_plus; f_equal; lra).
  assert (4 <= exp 2) as H2 by nra.
  assert (16 <= exp 4) as H4 by nra.
  assert (256 <= exp 8) as H8 by nra.
  nra.
Qed.

(** The morph completes in bounded time: from any progress in [0,1],
    once the frames in one mode add up to 16 seconds or more, the
    progress is within 0.001 of that mode's target. *)
Theorem morph_settles (m : TreeMode) (deltas : list R) (p : R) :
  0 <= p <= 1 -> 16 <= total_time deltas ->
  Rabs (last (progress_trace p (steady m deltas)) p - target_of m)
  <= 1 / 1000.
Proof.
  intros Hp Htime. rewrite steady_last.
  replace (target_of m + (p - target_of m)
                         * exp (- speed * total_time deltas) - target_of m)
    with ((p - target_of m) * exp (- speed * total_time deltas)) by ring.
  pose proof (exp_pos (- speed * total_time deltas)) as Hpos.
  rewrite Rabs_mult, (Rabs_right (exp _)) by lra.
  assert (Rabs (p - target_of m) <= 1) as Hoff.
  { pose proof (target_in_unit m) as HT. unfold in_unit in HT.
    apply Rabs_le. lra. }
  assert (exp (- speed * total_time deltas) <= / 1024) as Hexp.
  { apply Rle_trans with (/ exp 10).
    - rewrite <- (exp_Ropp 10). apply exp_monotone. unfold speed. lra.
    - apply Rinv_le_contravar; [lra | apply exp_ten]. }
  pose proof (Rabs_pos (p - target_of m)) as Habs.
  apply Rle_trans with (1 * / 1024); [| lra].
  apply Rmult_le_compat; lra.
Qed.

Lemma morph_settles_witness :
  Rabs (last (progress_trace 0 (steady FORMED [8; 8])) 0 - target_of FORMED)
  <= 1 / 1000.
Proof.
  apply (morph_settles FORMED [8; 8] 0).
  - lra.
  - simpl. lra.
Defined.

End MorphDynamics.

(** * Further properties of the mode driver *)

Section ModeDriverClicks.

Open Scope N_scope.

Lemma app_state_eq (a b : AppState) :
  mode a = mode b -> autoShift a = autoShift b -> interval a = interval b ->
  a = b.
Proof. destruct a, b; simpl; intros -> -> ->; reflexivity. Qed.

Lemma toggle_commutes_millisecond (st : AppState) :
  step Millisecond (step ClickToggle st)
  = step ClickToggle (step Millisecond st) /\
  due (step ClickToggle st) = due st.
Proof.
  split; [| reflexivity].
  unfold step, due, advance, interval_callback;
    cbn [mode autoShift interval].
  destruct (interval st) as [e |]; [| reflexivity].
  destruct (N.succ e =? period); reflexivity.
Qed.

Lemma iter_tick_toggle (ms : N) (st : AppState) (c : N) :
  N.iter ms tick (step ClickToggle st, c)
  = (step ClickToggle (fst (N.iter ms tick (st, c))),
     snd (N.iter ms tick (st, c))).
Proof.
  induction ms as [| ms IH] using N.peano_ind; [reflexivity |].
  rewrite !N.iter_succ, IH. unfold tick at 1 3. cbn [fst snd].
  destruct (toggle_commutes_millisecond (fst (N.iter ms tick (st, c))))
    as [-> ->].
  reflexivity.
Qed.

(** A click on the toggle and the passing of time commute: clicking
    before or after any number of milliseconds gives the same state, the
    interval's callback runs equally often either way, and the click
    leaves the interval's elapsed time untouched. *)
Theorem toggle_commutes_with_time (ms : N) (st : AppState) :
  elapse ms (step ClickToggle st) = step ClickToggle (elapse ms st) /\
  callbacks ms (step ClickToggle st) = callbacks ms st /\
  interval (step ClickToggle st) = interval st.
Proof.
  unfold elapse, callbacks. rewrite iter_tick_toggle. repeat split.
Qed.

(** The interval exists exactly while auto-shift is on: in every state
    the application can reach, an interval is set if and only if the
    auto-shift flag is true, and its elapsed time is below 6500 ms. *)
Theorem interval_tracks_auto_shift (st : AppState) :
  reachable st ->
  (autoShift st = true <-> exists e, interval st = Some e) /\
  (forall e, interval st = Some e -> e < 6500).
Proof.
  intros Hreach. apply reachable_well_formed in Hreach.
  unfold well_formed in Hreach.
  destruct (interval st) as [e |].
  - destruct Hreach as [Hauto He]. split.
    + split; [intros _; now exists e | intros _; exact Hauto].
    + intros e' [= <-]. exact He.
  - split.
    + split; [congruence | intros [e He]; discriminate].
    + intros e He. discriminate.
Qed.

Lemma interval_tracks_auto_shift_witness :
  (autoShift (run [Millisecond; ClickAutoShift; ClickToggle] mount) = true
   <-> exists e,
         interval (run [Millisecond; ClickAutoShift; ClickToggle] mount)
         = Some e) /\
  (forall e,
     interval (run [Millisecond; ClickAutoShift; ClickToggle] mount) = Some e
     -> e < 6500).
Proof.
  apply (interval_tracks_auto_shift
           (run [Millisecond; ClickAutoShift; ClickToggle] mount)).
  exists [Millisecond; ClickAutoShift; ClickToggle]. reflexivity.
Defined.

(** Switching auto-shift off and on again restarts the period: with
    auto-shift on, two clicks on the auto-shift button keep the mode and
    the flag, and from then on the callback has run [ms / 6500] times
    after [ms] milliseconds, however far the old interval had got. *)
Theorem auto_shift_restart (st : AppState) (ms : N) :
  autoShift st = true ->
  let st' := step ClickAutoShift (step ClickAutoShift st) in
  mode st' = mode st /\ autoShift st' = true /\ interval st' = Some 0 /\
  callbacks ms st' = ms / 6500 /\
  mode (elapse ms st') = flips (ms / 6500) (mode st).
Proof.
  intros Hauto st'.
  assert (interval st' = Some 0) as Hint
    by (unfold st'; simpl; rewrite Hauto; reflexivity).
  assert (mode st' = mode st) as Hmode by reflexivity.
  assert (autoShift st' = true) as Hflag
    by (unfold st'; simpl; rewrite Hauto; reflexivity).
  repeat split; try assumption.
  - unfold callbacks.
    rewrite (iter_tick_armed st' 0 ms Hint period_pos). reflexivity.
  - unfold elapse.
    rewrite (iter_tick_armed st' 0 ms Hint period_pos). reflexivity.
Qed.

Lemma auto_shift_restart_witness :
  let st' := step ClickAutoShift (step ClickAutoShift (elapse 6000 mount)) in
  mode st' = mode (elapse 6000 mount) /\ autoShift st' = true /\
  interval st' = Some 0 /\
  callbacks 6499 st' = 6499 / 6500 /\
  mode (elapse 6499 st') = flips (6499 / 6500) (mode (elapse 6000 mount)).
Proof.
  apply (auto_shift_restart (elapse 6000 mount) 6499).
  vm_compute. reflexivity.
Defined.

Lemma iter_tick_counter (ms : N) (st : AppState) (c : N) :
  N.iter ms tick (st, c)
  = (fst (N.iter ms tick (st, 0)), c + snd (N.iter ms tick (st, 0))).
Proof.
  induction ms as [| ms IH] using N.peano_ind.
  - simpl. now rewrite N.add_0_r.
  - rewrite !N.iter_succ, IH. set (X := N.iter ms tick (st, 0)).
    unfold tick. cbn [fst snd]. destruct (due (fst X)); f_equal; lia.
Qed.

(** Time composes: [a + b] milliseconds act as [a] milliseconds
    followed by [b] more, and the runs of the callback add up. *)
Lemma elapse_add (a b : N) (st : AppState) :
  elapse (a + b) st = elapse b (elapse a st) /\
  callbacks (a + b) st = callbacks a st + callbacks b (elapse a st).
Proof.
  unfold elapse, callbacks.
  rewrite N.add_comm, N.iter_add.
  rewrite (surjective_pairing (N.iter a tick (st, 0))).
  rewrite (iter_tick_counter b). cbn [fst snd]. split; reflexivity.
Qed.

End ModeDriverClicks.

(** * Further properties of the foliage shader *)

Section Shimmer.

Lemma length_norm_sq (v : Vector3.t) :
  Vector3.length v = sqrt (norm_sq v).
Proof. reflexivity. Qed.

Lemma norm_sq_nonneg (v : Vector3.t) : 0 <= norm_sq v.
Proof. unfold norm_sq. nra. Qed.

Lemma norm_sq_length (v : Vector3.t) :
  norm_sq v = Vector3.length v * Vector3.length v.
Proof.
  rewrite length_norm_sq. symmetry. apply sqrt_sqrt, norm_sq_nonneg.
Qed.

Lemma length_le_of_norm_sq (v : Vector3.t) (r : R) :
  0 <= r -> norm_sq v <= r * r -> Vector3.length v <= r.
Proof.
  intros Hr Hsq. rewrite length_norm_sq.
  rewrite <- (sqrt_square r Hr). now apply sqrt_le_1_alt.
Qed.

Lemma norm_sq_le_of_length (v : Vector3.t) (r : R) :
  Vector3.length v <= r -> norm_sq v <= r * r.
Proof.
  intros Hle. rewrite norm_sq_length.
  pose proof (length_nonneg v). nra.
Qed.

Lemma Rabs_le_bounds (a b : R) : Rabs a <= b -> - b <= a <= b.
Proof. unfold Rabs. destruct (Rcase_abs a); lra. Qed.

(** The shimmer moves a vertex along the ray from the origin through
    its interpolated point: where that point is not the origin, the
    displayed position is the point rescaled by [1 + wave / length], and
    its distance from the origin is [|length + wave|]; when the point is
    at least 0.05 from the origin this is [length + wave], so the
    distance from the origin changes by exactly [wave]. *)
Theorem shimmer_is_radial (p uTime sparkle : R) (c g : Vector3.t) :
  Vector3.length (GLSL.mix c g p) <> 0 ->
  exists d,
    foliage_vertex p uTime c g sparkle = Some d /\
    d = Vector3.scale (GLSL.mix c g p)
          (1 + wave uTime sparkle / Vector3.length (GLSL.mix c g p)) /\
    Vector3.length d
      = Rabs (Vector3.length (GLSL.mix c g p) + wave uTime sparkle) /\
    (0.05 <= Vector3.length (GLSL.mix c g p) ->
     Vector3.length d
       = Vector3.length (GLSL.mix c g p) + wave uTime sparkle).
Proof.
  intros Hm. set (m := GLSL.mix c g p) in *.
  pose proof (length_nonneg m) as Hpos.
  assert (Vector3.length
            (Vector3.scale m (1 + wave uTime sparkle / Vector3.length m))
          = Rabs (Vector3.length m + wave uTime sparkle)) as Hlen.
  { rewrite length_scale.
    rewrite <- (Rabs_right (Vector3.length m)) at 2 by lra.
    rewrite <- Rabs_mult. f_equal. field. assumption. }
  exists (Vector3.scale m (1 + wave uTime sparkle / Vector3.length m)).
  repeat split.
  - unfold m. rewrite foliage_vertex_defined by assumption.
    f_equal. apply vector_eq; simpl; field; assumption.
  - exact Hlen.
  - intros Hfar. rewrite Hlen. apply Rabs_right.
    pose proof (wave_bound uTime sparkle) as Hw.
    apply Rabs_le_bounds in Hw. lra.
Qed.

Lemma shimmer_is_radial_witness :
  exists d,
    foliage_vertex 1 (PI / 3) (Vector3.new 1 0 0) (Vector3.new 1.2 0 0) 0
      = Some d /\
    d = Vector3.scale (GLSL.mix (Vector3.new 1 0 0) (Vector3.new 1.2 0 0) 1)
          (1 + wave (PI / 3) 0
               / Vector3.length
                   (GLSL.mix (Vector3.new 1 0 0) (Vector3.new 1.2 0 0) 1)) /\
    Vector3.length d
      = Rabs (Vector3.length
                (GLSL.mix (Vector3.new 1 0 0) (Vector3.new 1.2 0 0) 1)
              + wave (PI / 3) 0) /\
    (0.05 <= Vector3.length
               (GLSL.mix (Vector3.new 1 0 0) (Vector3.new 1.2 0 0) 1) ->
     Vector3.length d
       = Vector3.length
           (GLSL.mix (Vector3.new 1 0 0) (Vector3.new 1.2 0 0) 1)
         + wave (PI / 3) 0).
Proof.
  apply (shimmer_is_radial 1 (PI / 3) 0
           (Vector3.new 1 0 0) (Vector3.new 1.2 0 0)).
  replace (GLSL.mix (Vector3.new 1 0 0) (Vector3.new 1.2 0 0) 1)
    with (Vector3.new 1.2 0 0) by (apply vector_eq; simpl; lra).
  rewrite length_on_x_axis; lra.
Defined.

(** The shimmer repeats every [4 * PI / 3] seconds: shifting the time
    uniform by that much changes neither the wave nor the displayed
    position of any vertex. *)
Theorem shimmer_period (p uTime sparkle : R) (c g : Vector3.t) :
  wave (uTime + 4 * PI / 3) sparkle = wave uTime sparkle /\
  foliage_vertex p (uTime + 4 * PI / 3) c g sparkle
  = foliage_vertex p uTime c g sparkle.
Proof.
  assert (wave (uTime + 4 * PI / 3) sparkle = wave uTime sparkle) as Hw.
  { unfold wave.
    replace ((uTime + 4 * PI / 3) * 1.5 + sparkle * 12)
      with (uTime * 1.5 + sparkle * 12 + 2 * PI) by lra.
    now rewrite sin_plus, sin_2PI, cos_2PI, Rmult_0_r, Rmult_1_r, Rplus_0_r. }
  split; [exact Hw |]. unfold foliage_vertex. cbv zeta. now rewrite Hw.
Qed.

End Shimmer.

(** * Properties of the geometry and ornament set builders *)

Section Builders.

Import MathUtils.
Import String.
Local Open Scope string_scope.
Local Open Scope R_scope.

Lemma combine_norm_sq_le (a b : Vector3.t) (s r2 : R) :
  0 <= s <= 1 -> norm_sq a <= r2 -> norm_sq b <= r2 ->
  norm_sq (Vector3.combine a b s) <= r2.
Proof.
  destruct a as [ax ay az], b as [bx by_ bz].
  unfold norm_sq, Vector3.combine. simpl. intros Hs Ha Hb.
  assert (0 <= (ax - bx) * (ax - bx) + (ay - by_) * (ay - by_)
               + (az - bz) * (az - bz)) as Hdiff.
  { pose proof (Rle_0_sqr (ax - bx)). pose proof (Rle_0_sqr (ay - by_)).
    pose proof (Rle_0_sqr (az - bz)). unfold Rsqr in *. lra. }
  assert (0 <= s * (1 - s)) as Hss by (apply Rmult_le_pos; lra).
  replace (((1 - s) * ax + s * bx) * ((1 - s) * ax + s * bx) +
           ((1 - s) * ay + s * by_) * ((1 - s) * ay + s * by_) +
           ((1 - s) * az + s * bz) * ((1 - s) * az + s * bz))
    with ((1 - s) * (ax * ax + ay * ay + az * az)
          + s * (bx * bx + by_ * by_ + bz * bz)
          - s * (1 - s) * ((ax - bx) * (ax - bx) + (ay - by_) * (ay - by_)
                           + (az - bz) * (az - bz))) by ring.
  nra.
Qed.

(** A sphere sample is inside the sphere. *)
Lemma sphere_sample_inside (radius u v w : R) :
  0 < radius -> 0 <= w < 1 ->
  norm_sq (randomPointInSphere radius u v w) <= radius * radius.
Proof.
  intros HR Hw. apply norm_sq_le_of_length.
  unfold randomPointInSphere. cbv zeta.
  pose proof (cbrt_nonneg w (proj1 Hw)) as Hc0.
  pose proof (cbrt_increasing w 1 Hw) as Hc1. rewrite cbrt_one in Hc1.
  rewrite spherical_norm by (apply Rmult_le_pos; lra). nra.
Qed.

(** A target point of the tree is within 3.27 of the origin. *)
Lemma tree_target_near (baseRadius d1 d2 d3 : R) (P : Vector3.t) :
  0 <= baseRadius <= TREE_RADIUS -> 0 <= d1 < 1 -> 0 <= d3 < 1 ->
  randomPointOnCone TREE_HEIGHT baseRadius d1 d2 d3 = Some P ->
  norm_sq P <= 3.27 * 3.27.
Proof.
  unfold TREE_RADIUS, TREE_HEIGHT, randomPointOnCone. intros HB Hd1 Hd3.
  destruct (Req_dec_T 5.2 0) as [Hz | Hnz]; [lra |]. cbv zeta.
  intros [= <-]. unfold norm_sq. simpl.
  replace (d1 * 5.2 / 5.2) with d1 by lra.
  set (rho := (1 - d1) * baseRadius + (d3 - 0.5) * 0.15).
  pose proof (sin2_cos2 (d2 * PI * 2)) as Ha. unfold Rsqr in Ha.
  replace (rho * cos (d2 * PI * 2) * (rho * cos (d2 * PI * 2)) +
           (d1 * 5.2 - 5.2 * 0.45) * (d1 * 5.2 - 5.2 * 0.45) +
           rho * sin (d2 * PI * 2) * (rho * sin (d2 * PI * 2)))
    with (rho * rho * (sin (d2 * PI * 2) * sin (d2 * PI * 2)
                       + cos (d2 * PI * 2) * cos (d2 * PI * 2))
          + (d1 * 5.2 - 5.2 * 0.45) * (d1 * 5.2 - 5.2 * 0.45)) by ring.
  rewrite Ha, Rmult_1_r.
  assert (0 <= (1 - d1) * baseRadius <= (1 - d1) * 2.2) as Hrad by nra.
  set (U := (1 - d1) * 2.2 + 0.075).
  assert (- U <= rho <= U) as Hrho by (unfold rho, U; lra).
  assert (rho * rho <= U * U) as Hsq by nra.
  assert (U * U + (d1 * 5.2 - 5.2 * 0.45) * (d1 * 5.2 - 5.2 * 0.45)
          <= 3.27 * 3.27) as Hq.
  { unfold U. assert (0 <= d1 * (1 - d1)) by nra. nra. }
  lra.
Qed.

Lemma tree_target_defined (baseRadius d1 d2 d3 : R) :
  exists P, randomPointOnCone TREE_HEIGHT baseRadius d1 d2 d3 = Some P.
Proof.
  unfold randomPointOnCone, TREE_HEIGHT.
  destruct (Req_dec_T 5.2 0) as [Hz | Hnz]; [lra |]. eexists. reflexivity.
Qed.

(** The set loop always completes, with one chaos point, one target
    and one colour per index, the colour cycling through the palette. *)
Lemma ornament_set_loop_shape (rand : Random) (palette : list String.string)
    (spread : R) (n : nat) :
  forall i k, exists cs gs cols,
    ornament_set_loop rand palette spread n i k = Some (cs, gs, cols) /\
    List.length cs = n /\ List.length gs = n /\ List.length cols = n /\
    (forall j, (j < n)%nat ->
       nth_error cols j
       = Some (nth_error palette ((i + j) mod List.length palette)%nat)).
Proof.
  induction n as [| n IH]; intros i k.
  - exists [], [], []. repeat split; try reflexivity. intros j Hj. lia.
  - cbn [ornament_set_loop].
    destruct (tree_target_defined (TREE_RADIUS * 0.85) (rand (3 + k)%nat)
                (rand (4 + k)%nat) (rand (5 + k)%nat)) as [g ->].
    destruct (IH (S i) (6 + k)%nat)
      as (cs & gs & cols & -> & Hcs & Hgs & Hcols & Hnth).
    do 3 eexists. split; [reflexivity |].
    repeat split; simpl; try congruence.
    intros [| j] Hj; cbn [nth_error].
    + now rewrite Nat.add_0_r.
    + rewrite Hnth by lia.
      replace (S i + j)%nat with (i + S j)%nat by lia. reflexivity.
Qed.

(** With draws in [0,1): every chaos point of the set is inside the
    sphere of radius [CHAOS_RADIUS + spread] and every target within
    3.27 of the origin. *)
Lemma ornament_set_loop_bounds (rand : Random) (palette : list String.string)
    (spread : R) (n : nat) :
  uniform_draws rand -> 0 <= spread ->
  forall i k cs gs cols,
    ornament_set_loop rand palette spread n i k = Some (cs, gs, cols) ->
    Forall (fun c => norm_sq c
                     <= (CHAOS_RADIUS + spread) * (CHAOS_RADIUS + spread)) cs /\
    Forall (fun g => norm_sq g <= 3.27 * 3.27) gs.
Proof.
  intros Hrand Hspread. induction n as [| n IH]; intros i k cs gs cols.
  - simpl. intros [= <- <- <-]. split; constructor.
  - cbn [ornament_set_loop].
    destruct (randomPointOnCone TREE_HEIGHT (TREE_RADIUS * 0.85)
                (rand (3 + k)%nat) (rand (4 + k)%nat) (rand (5 + k)%nat))
      as [g |] eqn:Hg; [| discriminate].
    destruct (ornament_set_loop rand palette spread n (S i) (6 + k)%nat)
      as [[[cs' gs'] cols'] |] eqn:Hrest; [| discriminate].
    intros [= <- <- <-].
    destruct (IH _ _ _ _ _ Hrest) as [Hcs Hgs]. split; constructor;
      try assumption.
    + apply sphere_sample_inside; [unfold CHAOS_RADIUS; lra | apply Hrand].
    + eapply (tree_target_near (TREE_RADIUS * 0.85));
        [unfold TREE_RADIUS; lra | | | exact Hg]; apply Hrand.
Qed.

Lemma ornament_loop_length (p w t : R) (cs gs : list Vector3.t) :
  ornament_t p w = Some t -> List.length cs = List.length gs ->
  exists insts,
    ornament_loop p w cs gs = Some insts /\
    List.length insts = List.length cs /\
    insts = map (fun cg => place (fst cg) (snd cg) t) (combine cs gs).
Proof.
  intros Ht Hlen.
  exists (map (fun cg => place (fst cg) (snd cg) t) (combine cs gs)).
  split; [apply ornament_loop_eq; assumption |].
  split; [| reflexivity].
  rewrite length_map, length_combine, <- Hlen. apply Nat.min_id.
Qed.

(** A set built by [useOrnamentSet] is complete: whatever the draws,
    the palette, the weight, the spread and the count, the builder
    returns a set with exactly [count] chaos points, [count] targets and
    [count] colours and the weight it was given, so every index of the
    chaos points has a target and a colour. *)
Theorem ornament_set_complete (count : nat) (palette : list String.string)
    (w spread : R) (rand : Random) (k : nat) :
  exists set,
    useOrnamentSet count palette w spread rand k = Some set /\
    List.length (chaos (set_definition set)) = count /\
    List.length (target (set_definition set)) = count /\
    List.length (colors set) = count /\
    weight (set_definition set) = w /\
    (forall i, (i < List.length (chaos (set_definition set)))%nat ->
       (exists g, nth_error (target (set_definition set)) i = Some g) /\
       (exists col, nth_error (colors set) i = Some col)).
Proof.
  unfold useOrnamentSet.
  destruct (ornament_set_loop_shape rand palette spread count 0%nat k)
    as (cs & gs & cols & -> & Hcs & Hgs & Hcols & _).
  eexists. split; [reflexivity |]. simpl.
  repeat split; try assumption.
  - destruct (nth_error gs i) as [g |] eqn:Hg; [now exists g |].
    apply nth_error_None in Hg. lia.
  - destruct (nth_error cols i) as [col |] eqn:Hc; [now exists col |].
    apply nth_error_None in Hc. lia.
Qed.

End Builders.

Section Palette.

Import String.
Local Open Scope string_scope.
Local Open Scope R_scope.

(** The colours of a set cycle through the palette by index: the colour
    at index [i] is made from [palette[i % palette.length]]; for a
    palette that is not empty this is always one of its entries, and
    indices one palette length apart get the same entry. *)
Theorem ornament_colors_cycle (count : nat) (palette : list string)
    (w spread : R) (rand : Random) (k : nat) :
  palette <> [] ->
  exists set,
    useOrnamentSet count palette w spread rand k = Some set /\
    (forall i, (i < count)%nat ->
       exists col,
         nth_error (colors set) i = Some (Some col) /\
         nth_error palette (i mod List.length palette)%nat = Some col /\
         In col palette) /\
    (forall i, (i + List.length palette < count)%nat ->
       nth_error (colors set) (i + List.length palette)%nat
       = nth_error (colors set) i).
Proof.
  intros Hne. unfold useOrnamentSet.
  destruct (ornament_set_loop_shape rand palette spread count 0%nat k)
    as (cs & gs & cols & -> & _ & _ & _ & Hnth).
  eexists. split; [reflexivity |]. simpl.
  assert (List.length palette <> 0%nat) as Hlen
    by (destruct palette; [contradiction | simpl; lia]).
  split.
  - intros i Hi. rewrite (Hnth i Hi). simpl.
    destruct (nth_error palette (i mod List.length palette)%nat)
      as [col |] eqn:Hcol.
    + exists col. repeat split. eapply nth_error_In. exact Hcol.
    + apply nth_error_None in Hcol.
      pose proof (Nat.mod_upper_bound i (List.length palette) Hlen). lia.
  - intros i Hi. rewrite !Hnth by lia. simpl. do 2 f_equal.
    rewrite <- (Nat.mul_1_l (List.length palette)) at 1.
    now rewrite Nat.Div0.mod_add.
Qed.

Lemma ornament_colors_cycle_witness :
  exists set,
    useOrnamentSet 5 ["#ffd98a"; "#fff1c7"; "#ffcf6b"] light_weight 0.1
      (fun _ => 1 / 2) 0 = Some set /\
    (forall i, (i < 5)%nat ->
       exists col,
         nth_error (colors set) i = Some (Some col) /\
         nth_error ["#ffd98a"; "#fff1c7"; "#ffcf6b"]
           (i mod List.length ["#ffd98a"; "#fff1c7"; "#ffcf6b"])%nat
         = Some col /\
         In col ["#ffd98a"; "#fff1c7"; "#ffcf6b"]) /\
    (forall i,
       (i + List.length ["#ffd98a"; "#fff1c7"; "#ffcf6b"] < 5)%nat ->
       nth_error (colors set)
         (i + List.length ["#ffd98a"; "#fff1c7"; "#ffcf6b"])%nat
       = nth_error (colors set) i).
Proof.
  apply (ornament_colors_cycle 5 ["#ffd98a"; "#fff1c7"; "#ffcf6b"]
           light_weight 0.1 (fun _ => 1 / 2) 0).
  discriminate.
Defined.

End Palette.

(** * Where the scene can be *)

Section BoundingSphere.

Import MathUtils.

Lemma place_near (c g : Vector3.t) (t r : R) :
  0 <= t <= 1 -> 0 <= r -> norm_sq c <= r * r -> norm_sq g <= r * r ->
  Vector3.length (position (place c g t)) <= r.
Proof.
  intros Ht Hr Hc Hg. apply length_le_of_norm_sq; [assumption |].
  simpl. rewrite lerp_combine. now apply combine_norm_sq_le.
Qed.

(** No ornament ever leaves the chaos sphere of its group: for draws in
    [0,1), a spread that is not negative and a positive weight, every
    instance the frame callback writes for a set built by
    [useOrnamentSet], at every progress value, is within
    [CHAOS_RADIUS + spread] of the origin. *)
Theorem ornaments_stay_in_chaos_sphere (count : nat)
    (palette : list String.string) (w spread : R) (rand : Random)
    (k : nat) (p : R) :
  uniform_draws rand -> 0 <= spread -> 0 < w ->
  exists set insts,
    useOrnamentSet count palette w spread rand k = Some set /\
    OrnamentInstances (set_definition set) p = Some insts /\
    List.length insts = count /\
    Forall (fun i => Vector3.length (position i) <= CHAOS_RADIUS + spread)
           insts.
Proof.
  intros Hrand Hspread Hw. unfold useOrnamentSet.
  destruct (ornament_set_loop_shape rand palette spread count 0%nat k)
    as (cs & gs & cols & Hloop & Hcs & Hgs & _ & _).
  rewrite Hloop.
  destruct (ornament_set_loop_bounds rand palette spread count Hrand Hspread
              _ _ _ _ _ Hloop) as [Hcb Hgb].
  destruct (ornament_t_unit p w Hw) as (t & Ht & Hunit).
  destruct (ornament_loop_length p w t cs gs Ht ltac:(congruence))
    as (insts & Hrun & Hlen & Hinsts).
  eexists. exists insts. split; [reflexivity |]. simpl.
  repeat split; try assumption; [congruence |].
  subst insts. apply Forall_map, Forall_forall. intros [c g] Hin.
  rewrite Forall_forall in Hcb, Hgb. cbn [fst snd].
  assert (3.27 * 3.27
          <= (CHAOS_RADIUS + spread) * (CHAOS_RADIUS + spread)) as Hbig
    by (unfold CHAOS_RADIUS; nra).
  apply place_near; try assumption.
  - unfold CHAOS_RADIUS. lra.
  - apply Hcb. eapply in_combine_l. exact Hin.
  - eapply Rle_trans; [| exact Hbig]. apply Hgb.
    eapply in_combine_r. exact Hin.
Qed.

Lemma ornaments_stay_in_chaos_sphere_witness :
  exists set insts,
    useOrnamentSet 3 [] gift_weight 0.4 (fun _ => 1 / 2) 0 = Some set /\
    OrnamentInstances (set_definition set) (1 / 2) = Some insts /\
    List.length insts = 3%nat /\
    Forall (fun i => Vector3.length (position i) <= CHAOS_RADIUS + 0.4)
           insts.
Proof.
  apply (ornaments_stay_in_chaos_sphere 3 [] gift_weight 0.4
           (fun _ => 1 / 2) 0 (1 / 2)).
  - intros n. lra.
  - lra.
  - unfold gift_weight. lra.
Defined.

End BoundingSphere.

Section FoliageCloud.

Import MathUtils.

Lemma foliage_loop_shape (rand : Random) (n : nat) :
  forall k, exists geo,
    foliage_loop rand n k = Some geo /\
    List.length (position_attribute geo) = n /\
    List.length (target_attribute geo) = n /\
    List.length (sparkle_attribute geo) = n.
Proof.
  induction n as [| n IH]; intros k.
  - eexists. split; [reflexivity |]. repeat split.
  - cbn [foliage_loop].
    destruct (tree_target_defined TREE_RADIUS (rand (3 + k)%nat)
                (rand (4 + k)%nat) (rand (5 + k)%nat)) as [g ->].
    destruct (IH (7 + k)%nat) as (geo & -> & Hp & Ht & Hs).
    eexists. split; [reflexivity |]. simpl. repeat split; congruence.
Qed.

Lemma foliage_loop_bounds (rand : Random) (n : nat) :
  uniform_draws rand ->
  forall k geo,
    foliage_loop rand n k = Some geo ->
    Forall (fun c => norm_sq c <= CHAOS_RADIUS * CHAOS_RADIUS)
           (position_attribute geo) /\
    Forall (fun g => norm_sq g <= 3.27 * 3.27) (target_attribute geo) /\
    Forall (fun s => 0 <= s < 1) (sparkle_attribute geo).
Proof.
  intros Hrand. induction n as [| n IH]; intros k geo.
  - simpl. intros [= <-]. simpl. repeat split; constructor.
  - cbn [foliage_loop].
    destruct (randomPointOnCone TREE_HEIGHT TREE_RADIUS (rand (3 + k)%nat)
                (rand (4 + k)%nat) (rand (5 + k)%nat))
      as [g |] eqn:Hg; [| discriminate].
    destruct (foliage_loop rand n (7 + k)%nat) as [geo' |] eqn:Hrest;
      [| discriminate].
    intros [= <-]. simpl.
    destruct (IH _ _ Hrest) as (Hp & Ht & Hs).
    repeat split; constructor; try assumption; try apply Hrand.
    + apply sphere_sample_inside; [unfold CHAOS_RADIUS; lra | apply Hrand].
    + eapply (tree_target_near TREE_RADIUS);
        [unfold TREE_RADIUS; lra | | | exact Hg]; apply Hrand.
Qed.

(** The geometry of the foliage is complete and its phases are sound:
    for draws in [0,1) the builder returns a geometry with exactly
    [FOLIAGE_COUNT] chaos points, targets and phases; and however the
    typed array rounds a phase when it stores it ([store]: any monotone
    rounding that keeps 0 and 1, the exact value included), every
    stored phase is in the closed interval [0,1] and every point size
    [6.5 + sparkle * 6] in [6.5, 12.5].  The intervals are closed
    because the rounding may take a draw just below 1 up to 1. *)
Theorem foliage_geometry_complete (rand : Random) (k : nat)
    (store : R -> R) :
  uniform_draws rand ->
  (forall a b, a <= b -> store a <= store b) ->
  store 0 = 0 -> store 1 = 1 ->
  exists geo,
    FoliagePoints_geometry rand k = Some geo /\
    List.length (position_attribute geo) = FOLIAGE_COUNT /\
    List.length (target_attribute geo) = FOLIAGE_COUNT /\
    List.length (sparkle_attribute geo) = FOLIAGE_COUNT /\
    Forall (fun s => 0 <= store s <= 1 /\
                     6.5 <= gl_PointSize (store s) <= 12.5)
           (sparkle_attribute geo).
Proof.
  intros Hrand Hmono H0 H1. unfold FoliagePoints_geometry.
  destruct (foliage_loop_shape rand FOLIAGE_COUNT k)
    as (geo & Hgeo & Hp & Ht & Hs).
  exists geo. repeat split; try assumption.
  destruct (foliage_loop_bounds rand FOLIAGE_COUNT Hrand k geo Hgeo)
    as (_ & _ & Hspk).
  eapply Forall_impl; [| exact Hspk]. simpl. intros s Hrange.
  assert (0 <= store s <= 1) as Hstored.
  { split; [rewrite <- H0 | rewrite <- H1]; apply Hmono; lra. }
  unfold gl_PointSize. lra.
Qed.

Lemma foliage_geometry_complete_witness :
  exists geo,
    FoliagePoints_geometry (fun _ => 1 / 2) 0 = Some geo /\
    List.length (position_attribute geo) = FOLIAGE_COUNT /\
    List.length (target_attribute geo) = FOLIAGE_COUNT /\
    List.length (sparkle_attribute geo) = FOLIAGE_COUNT /\
    Forall (fun s => 0 <= (fun a : R => a) s <= 1 /\
                     6.5 <= gl_PointSize ((fun a : R => a) s) <= 12.5)
           (sparkle_attribute geo).
Proof.
  apply (foliage_geometry_complete (fun _ => 1 / 2) 0 (fun a : R => a)).
  - intros n. lra.
  - intros a b Hab. exact Hab.
  - reflexivity.
  - reflexivity.
Defined.

Lemma vertex_distance (p uTime sparkle : R) (c g d : Vector3.t) :
  foliage_vertex p uTime c g sparkle = Some d ->
  Vector3.length d <= Vector3.length (GLSL.mix c g p) + 0.05.
Proof.
  set (m := GLSL.mix c g p).
  destruct (Req_dec_T (Vector3.length m) 0) as [Hz | Hnz].
  - unfold foliage_vertex. cbv zeta. fold m.
    rewrite normalize_undefined by assumption. discriminate.
  - unfold m in *. rewrite foliage_vertex_defined by assumption.
    fold m. intros [= <-].
    pose proof (length_nonneg m) as Hpos.
    replace (Vector3.add m
               (Vector3.scale (Vector3.scale m (/ Vector3.length m))
                  (wave uTime sparkle)))
      with (Vector3.scale m (1 + wave uTime sparkle / Vector3.length m))
      by (apply vector_eq; simpl; field; assumption).
    rewrite length_scale.
    rewrite <- (Rabs_right (Vector3.length m)) at 2 by lra.
    rewrite <- Rabs_mult.
    replace ((1 + wave uTime sparkle / Vector3.length m) * Vector3.length m)
      with (Vector3.length m + wave uTime sparkle) by (field; assumption).
    pose proof (wave_bound uTime sparkle) as Hw.
    apply Rabs_le_bounds in Hw. apply Rabs_le. lra.
Qed.

(** The foliage never leaves the chaos sphere by more than the shimmer:
    for draws in [0,1), every progress value in [0,1] and every time,
    the vertex shader runs on exactly [FOLIAGE_COUNT] vertices and every
    position it displays is within [CHAOS_RADIUS + 0.05] of the
    origin. *)
Theorem foliage_stays_in_chaos_sphere (rand : Random) (k : nat)
    (p uTime : R) :
  uniform_draws rand -> 0 <= p <= 1 ->
  exists geo,
    FoliagePoints_geometry rand k = Some geo /\
    List.length (foliage_frame geo p uTime) = FOLIAGE_COUNT /\
    Forall (fun shown =>
              forall d, shown = Some d ->
                        Vector3.length d <= CHAOS_RADIUS + 0.05)
           (foliage_frame geo p uTime).
Proof.
  intros Hrand Hp. unfold FoliagePoints_geometry.
  destruct (foliage_loop_shape rand FOLIAGE_COUNT k)
    as (geo & Hgeo & Hpos & Htgt & Hspk).
  exists geo. split; [assumption |].
  destruct (foliage_loop_bounds rand FOLIAGE_COUNT Hrand k geo Hgeo)
    as (Hcb & Hgb & _).
  unfold foliage_frame. split.
  - rewrite length_map, !length_combine, Hpos, Htgt, Hspk.
    now rewrite !Nat.min_id.
  - apply Forall_map, Forall_forall. intros [[c g] s] Hin d Hd.
    cbn [fst snd] in Hd. apply vertex_distance in Hd.
    apply in_combine_l in Hin.
    rewrite Forall_forall in Hcb, Hgb.
    assert (Vector3.length (GLSL.mix c g p) <= CHAOS_RADIUS) as Hm.
    { apply length_le_of_norm_sq; [unfold CHAOS_RADIUS; lra |].
      rewrite mix_combine. apply combine_norm_sq_le; [assumption | |].
      - apply Hcb. eapply in_combine_l. exact Hin.
      - eapply Rle_trans; [apply Hgb; eapply in_combine_r; exact Hin |].
        unfold CHAOS_RADIUS. lra. }
    lra.
Qed.

Lemma foliage_stays_in_chaos_sphere_witness :
  exists geo,
    FoliagePoints_geometry (fun _ => 1 / 2) 0 = Some geo /\
    List.length (foliage_frame geo (1 / 2) 3) = FOLIAGE_COUNT /\
    Forall (fun shown =>
              forall d, shown = Some d ->
                        Vector3.length d <= CHAOS_RADIUS + 0.05)
           (foliage_frame geo (1 / 2) 3).
Proof.
  apply (foliage_stays_in_chaos_sphere (fun _ => 1 / 2) 0 (1 / 2) 3).
  - intros n. lra.
  - lra.
Defined.

End FoliageCloud.
